(** * Site check: page inventory, rendering pipeline and runtime polyfills

    A shallow embedding of [scripts/check-site.ts] (the end-to-end check
    of the documentation site) and of its Jest setup file, which installs
    the [File] and [FormData] stand-ins.

    Layout:
    - [Text]      JavaScript string primitives used by the script;
    - [Regex]     a backtracking matcher for the regular expressions used;
    - [Inventory] the page inventory ([components]);
    - [Effects]   a small log-and-exception monad for the async code;
    - [Render]    [render], [handleComponentName], the scenarios;
    - [Teardown]  the [afterAll] hook;
    - [Polyfill]  [MockFile] and [MockFormData];
    - [Setup]     the [beforeAll] hook;
    - [Samples]   concrete documents and worlds for the examples;
    - [TextFacts], [RegexFacts], [InventoryFacts], [RenderFacts],
      [TeardownFacts], [PolyfillFacts]: the properties;
    - [InventoryLaws], [RenderLaws], [SetupFacts], [PolyfillLaws]:
      further properties of the same code. *)

From Stdlib Require Import List Ascii String Bool Arith ZArith NArith Lia.
From Stdlib Require Import DecimalString.
From stdpp Require Import gmap strings.
Import ListNotations.

Set Default Proof Using "Type".

(* ===================================================================== *)
(** ** JavaScript string primitives *)
(* ===================================================================== *)

Module Text.

(** File paths and page identifiers are sequences of 8-bit characters;
    case mapping acts on the ASCII letters. *)
Definition text := list ascii.

Definition txt (s : string) : text := list_ascii_of_string s.

Definition backslash : ascii := ascii_of_nat 92.
Definition slash : ascii := ascii_of_nat 47.

Definition is_upper (c : ascii) : bool :=
  (65 <=? nat_of_ascii c) && (nat_of_ascii c <=? 90).

Definition is_lower (c : ascii) : bool :=
  (97 <=? nat_of_ascii c) && (nat_of_ascii c <=? 122).

Definition lower_char (c : ascii) : ascii :=
  if is_upper c then ascii_of_nat (nat_of_ascii c + 32) else c.

Definition upper_char (c : ascii) : ascii :=
  if is_lower c then ascii_of_nat (nat_of_ascii c - 32) else c.

(** [String.prototype.toLowerCase] on ASCII text: the letters A to Z are
    mapped and every other character is kept; the case tables of the
    characters outside ASCII are not part of the model. *)
Definition toLowerCase (s : text) : text := map lower_char s.

(** A text made of ASCII characters only. *)
Definition is_ascii (s : text) : bool :=
  forallb (fun c => nat_of_ascii c <? 128) s.

Fixpoint text_eqb (a b : text) : bool :=
  match a, b with
  | [], [] => true
  | x :: a', y :: b' => Ascii.eqb x y && text_eqb a' b'
  | _, _ => false
  end.

(** [strip_prefix p s] is [Some rest] when [s = p ++ rest]. *)
Fixpoint strip_prefix (p s : text) : option text :=
  match p with
  | [] => Some s
  | x :: p' =>
      match s with
      | [] => None
      | y :: s' => if Ascii.eqb x y then strip_prefix p' s' else None
      end
  end.

Definition startsWith (p s : text) : bool :=
  match strip_prefix p s with Some _ => true | None => false end.

(** [String.prototype.includes] *)
Fixpoint includes (needle hay : text) : bool :=
  startsWith needle hay ||
  match hay with
  | [] => false
  | _ :: hay' => includes needle hay'
  end.

(** [s.replace(pat, repl)] with a string pattern: only the first
    occurrence is replaced. *)
Fixpoint replace (pat repl s : text) : text :=
  match strip_prefix pat s with
  | Some rest => repl ++ rest
  | None =>
      match s with
      | [] => []
      | c :: s' => c :: replace pat repl s'
      end
  end.

(** [s.split(sep)] for a one-character separator; the result is never
    empty ([''.split('/')] is [['']]). *)
Fixpoint split (sep : ascii) (s : text) : list text :=
  match s with
  | [] => [[]]
  | c :: s' =>
      if Ascii.eqb c sep then [] :: split sep s'
      else match split sep s' with
           | [] => [[c]]
           | seg :: segs => (c :: seg) :: segs
           end
  end.

(** [strip_suffix sfx s] is [Some pre] when [s = pre ++ sfx]. *)
Definition strip_suffix (sfx s : text) : option text :=
  option_map (@rev ascii) (strip_prefix (rev sfx) (rev s)).

(** Truthiness of a string: the empty string is falsy. *)
Definition truthy (s : text) : bool :=
  match s with [] => false | _ :: _ => true end.

(** [endsWith], and its case-insensitive form. *)
Definition endsWith (sfx s : text) : bool := startsWith (rev sfx) (rev s).

(** Canonical form for case-insensitive comparison (upper-casing, as the
    regular-expression engine does under the [i] flag). *)
Definition canon (s : text) : text := map upper_char s.

Definition endsWith_ci (sfx s : text) : bool :=
  endsWith (canon sfx) (canon s).

End Text.

(* ===================================================================== *)
(** ** Regular expressions *)
(* ===================================================================== *)

Module Regex.
Import Text.

(** The fragment of the regular-expression syntax the script uses:
    characters, character classes, concatenation, alternation, the greedy
    [?] and the end anchor [$]. *)
Inductive regex : Type :=
| Eps : regex
| Chr : ascii -> regex
| Cls : list ascii -> regex
| Cat : regex -> regex -> regex
| Alt : regex -> regex -> regex
| Opt : regex -> regex
| Eos : regex.

Definition lit (s : string) : regex :=
  fold_right (fun c r => Cat (Chr c) r) Eps (txt s).

(** Character comparison; under the [i] flag both sides are
    canonicalised by upper-casing. *)
Definition chr_eqb (ci : bool) (p c : ascii) : bool :=
  if ci then Ascii.eqb (upper_char p) (upper_char c) else Ascii.eqb p c.

(** Backtracking matcher in continuation-passing style: [rmatch ci r s k]
    matches [r] at the head of [s] and hands the remaining input to [k];
    the first success in priority order wins. *)
Fixpoint rmatch (ci : bool) (r : regex) (s : text)
    (k : text -> option text) : option text :=
  match r with
  | Eps => k s
  | Chr p =>
      match s with
      | c :: s' => if chr_eqb ci p c then k s' else None
      | [] => None
      end
  | Cls ps =>
      match s with
      | c :: s' => if existsb (fun p => chr_eqb ci p c) ps then k s' else None
      | [] => None
      end
  | Cat r1 r2 => rmatch ci r1 s (fun s' => rmatch ci r2 s' k)
  | Alt r1 r2 =>
      match rmatch ci r1 s k with
      | Some out => Some out
      | None => rmatch ci r2 s k
      end
  | Opt r1 =>
      match rmatch ci r1 s k with
      | Some out => Some out
      | None => k s
      end
  | Eos => match s with [] => k [] | _ :: _ => None end
  end.

(** A match starting at the head of [s]: the input left after it. *)
Definition match_here (ci : bool) (r : regex) (s : text) : option text :=
  rmatch ci r s Some.

(** [s.replace(re, repl)] for a regular expression without the [g] flag:
    the leftmost match is replaced, and [s] is returned as it is when
    there is none. *)
Fixpoint replace_re (ci : bool) (r : regex) (repl s : text) : text :=
  match match_here ci r s with
  | Some rest => repl ++ rest
  | None =>
      match s with
      | [] => []
      | c :: s' => c :: replace_re ci r repl s'
      end
  end.

(** [s.replace(/\\/g, '/')]: every backslash becomes a slash. *)
Definition slashes (s : text) : text :=
  map (fun c => if Ascii.eqb c backslash then slash else c) s.

(** Declarative reading of a pattern: [matches ci r s s'] when [r]
    matches a prefix of [s] and leaves [s']. *)
Inductive matches (ci : bool) : regex -> text -> text -> Prop :=
| M_Eps s : matches ci Eps s s
| M_Chr p c s : chr_eqb ci p c = true -> matches ci (Chr p) (c :: s) s
| M_Cls ps c s :
    existsb (fun p => chr_eqb ci p c) ps = true -> matches ci (Cls ps) (c :: s) s
| M_Cat r1 r2 s s1 s2 :
    matches ci r1 s s1 -> matches ci r2 s1 s2 -> matches ci (Cat r1 r2) s s2
| M_AltL r1 r2 s s' : matches ci r1 s s' -> matches ci (Alt r1 r2) s s'
| M_AltR r1 r2 s s' : matches ci r2 s s' -> matches ci (Alt r1 r2) s s'
| M_OptSome r s s' : matches ci r s s' -> matches ci (Opt r) s s'
| M_OptNone r s : matches ci (Opt r) s s
| M_Eos : matches ci Eos [] [].

End Regex.

(* ===================================================================== *)
(** ** Page inventory *)
(* ===================================================================== *)

Module Inventory.
Import Text Regex.

(** [/([/\\]index)?(\.\$tab-design)?((\.zh-cn)|(\.en-us))?\.md$/i] *)
Definition suffix_re : regex :=
  Cat (Opt (Cat (Cls [slash; backslash]) (lit "index")))
 (Cat (Opt (lit ".$tab-design"))
 (Cat (Opt (Alt (lit ".zh-cn") (lit ".en-us")))
 (Cat (lit ".md") Eos))).

(** The callback mapped over the discovered files. *)
Definition normalizeId (filePath : text) : text :=
  let normalizedPath := slashes filePath in
  replace_re true suffix_re [] normalizedPath.

(** The suffixes [suffix_re] matches, in canonical (upper-case) form:
    an optional index segment, an optional tab marker, an optional
    locale, and the extension. *)
Definition index_parts : list text :=
  [[]; canon (slash :: txt "index"); canon (backslash :: txt "index")].
Definition tab_parts : list text := [[]; canon (txt ".$tab-design")].
Definition locale_parts : list text :=
  [[]; canon (txt ".zh-cn"); canon (txt ".en-us")].

Definition suffix_forms : list text :=
  flat_map (fun i =>
    flat_map (fun t =>
      map (fun l => i ++ t ++ l ++ canon (txt ".md")) locale_parts)
      tab_parts)
    index_parts.

Definition is_form (u : text) : bool := existsb (text_eqb u) suffix_forms.



(** The source files of one page: the stem, an optional [/index]
    segment, an optional locale, the extension. *)
Inductive index_form : Type := Plain | Index.
Inductive locale : Type := NoLocale | ZhCn | EnUs.

Definition index_suffix (i : index_form) : text :=
  match i with Plain => [] | Index => txt "/index" end.

Definition locale_suffix (l : locale) : text :=
  match l with NoLocale => [] | ZhCn => txt ".zh-cn" | EnUs => txt ".en-us" end.

Definition source_path (stem : text) (i : index_form) (l : locale) : text :=
  stem ++ index_suffix i ++ locale_suffix l ++ txt ".md".

(** [lodash/uniq]: first occurrences, in order. *)
Definition uniq (l : list text) : list text :=
  fold_left
    (fun seen x => if existsb (text_eqb x) seen then seen else seen ++ [x])
    l [].

(** [components], as a function of the files the glob returned. *)
Definition components (files : list text) : list text :=
  List.filter (fun component => negb (includes (txt "_util") component))
         (uniq (map normalizeId files)).

(** The discovery pattern ['components/!(overview)/*.md'] with
    [dot: false], on a [/]-separated path: exactly three segments, the
    first [components], the second any directory but [overview], the
    third a file name ending in [.md]; no segment is empty or starts with
    a dot. *)
Definition visible (seg : text) : bool :=
  match seg with
  | [] => false
  | c :: _ => negb (Ascii.eqb c "."%char)
  end.

(** [cut E s]: [s] up to the leftmost position from which the rest of
    [s] is, up to letter case, one of [E]. *)
Fixpoint cut (E : list text) (s : text) : text :=
  if existsb (text_eqb (canon s)) E then []
  else match s with
       | [] => []
       | c :: s' => c :: cut E s'
       end.

(** What can stand in front of the suffix [V] inside one match of
    [suffix_re] (in canonical form). *)
Definition fronts (V : text) : list text :=
  flat_map (fun F => match strip_suffix V F with Some u => [u] | None => [] end)
           suffix_forms.

(** The three parts a source path carries after its stem: the index
    part (nothing, or [index] after a slash or a backslash), the locale
    part (nothing, [.zh-cn] or [.en-us]) and the extension [.md], each in
    any letter case. *)
Definition is_index_part (i : text) : bool :=
  text_eqb (canon (slashes i)) []
  || text_eqb (canon (slashes i)) (canon (slash :: txt "index")).

Definition is_locale_part (l : text) : bool :=
  existsb (text_eqb (canon (slashes l))) locale_parts.

Definition is_extension (e : text) : bool :=
  text_eqb (canon (slashes e)) (canon (txt ".md")).

(** How much of the end of the stem a suffix leaves open to the match:
    nothing when it has an index part; an index segment or a tab marker
    when it has a locale but no index part; any marker when it has
    neither. *)
Inductive exposure : Type := Shielded | Half | Bare.

Definition exposure_of (i l : text) : exposure :=
  match i, l with
  | _ :: _, _ => Shielded
  | [], _ :: _ => Half
  | [], [] => Bare
  end.

Definition front_markers : list text :=
  [slash :: txt "index"; backslash :: txt "index"; txt ".$tab-design"].

Definition locale_markers : list text := [txt ".zh-cn"; txt ".en-us"].

Definition absorbed (x : exposure) : list text :=
  match x with
  | Shielded => []
  | Half => front_markers
  | Bare => front_markers ++ locale_markers
  end.

(** The markers that one of two suffixes absorbs and the other not. *)
Definition between (a b : exposure) : list text :=
  match a, b with
  | Shielded, Shielded | Half, Half | Bare, Bare => []
  | Shielded, Half | Half, Shielded => front_markers
  | Shielded, Bare | Bare, Shielded => front_markers ++ locale_markers
  | Half, Bare | Bare, Half => locale_markers
  end.

Definition ends_in_none (ms : list text) (s : text) : bool :=
  forallb (fun m => negb (endsWith_ci m s)) ms.

(** Two suffixes on one stem agree when the stem, with slashes for
    backslashes, ends in none of the markers between them. *)
Definition agree (stem i1 l1 i2 l2 : text) : bool :=
  ends_in_none (between (exposure_of i1 l1) (exposure_of i2 l2)) (slashes stem).

Definition level_fronts (x : exposure) : list text :=
  match x with
  | Shielded => [[]]
  | Half => fronts (canon (txt ".zh-cn.md"))
  | Bare => fronts (canon (txt ".md"))
  end.

Definition same_members (L1 L2 : list text) : bool :=
  forallb (fun x => existsb (text_eqb x) L2) L1
  && forallb (fun x => existsb (text_eqb x) L1) L2.


Definition discovered (path : text) : bool :=
  match split slash path with
  | [root; dir; file] =>
      text_eqb root (txt "components")
      && visible dir && negb (text_eqb dir (txt "overview"))
      && visible file && endsWith (txt ".md") file
  | _ => false
  end.

End Inventory.


(* ===================================================================== *)
(** ** Effects: a log of external calls and an exception *)
(* ===================================================================== *)

Module Effects.

(** A thrown value, by its message. *)
Definition error := string.

Inductive outcome (A : Type) : Type :=
| Returned : A -> outcome A
| Thrown : error -> outcome A.
Arguments Returned {A} _.
Arguments Thrown {A} _.

Section Eff.
Context {E : Type}.

(** An asynchronous computation, run to completion: the external calls
    it made, in order, and how it ended. *)
Definition eff (A : Type) : Type := list E * outcome A.

Definition ret {A} (a : A) : eff A := ([], Returned a).

Definition throw {A} (e : error) : eff A := ([], Thrown e).

Definition bind {A B} (m : eff A) (f : A -> eff B) : eff B :=
  match m with
  | (log, Returned a) => let (log', r) := f a in (log ++ log', r)
  | (log, Thrown e) => (log, Thrown e)
  end.

(** An external call: it is logged, and its result is the one the
    outside world gives. *)
Definition call {A} (ev : E) (result : outcome A) : eff A := ([ev], result).

(** [try { body } catch (e) { handler e }] *)
Definition try_catch {A} (body : eff A) (handler : error -> eff A) : eff A :=
  match body with
  | (log, Returned a) => (log, Returned a)
  | (log, Thrown e) => let (log', r) := handler e in (log ++ log', r)
  end.

Definition calls {A} (m : eff A) : list E := fst m.
Definition result {A} (m : eff A) : outcome A := snd m.

Definition passes {A} (m : eff A) : bool :=
  match result m with Returned _ => true | Thrown _ => false end.

End Eff.
Arguments eff : clear implicits.

Declare Scope eff_scope.
Delimit Scope eff_scope with eff.
Notation "x <- m ;; k" := (bind m (fun x => k))
  (at level 62, m at next level, right associativity) : eff_scope.
Notation "m ;;; k" := (bind m (fun _ => k))
  (at level 62, right associativity) : eff_scope.

End Effects.

(* ===================================================================== *)
(** ** Render-and-extract, and the scenarios *)
(* ===================================================================== *)

Module Render.
Import Text Effects.
Local Open Scope eff_scope.

Inductive event : Type :=
| AwaitPort
| Goto (url : text) (timeout : N)
| Settle (ms : N)
| WaitForSelector (selector : text) (timeout : N)
| Content
| ConsoleError (url : text) (e : error)
| ConsoleLog (component : text) (tables : nat)
| Fetch (url : text)
| ReadBody
| MatchSnapshot (value : nat).

(** What [fetch] resolves to: the status, and the outcome of reading
    the body. *)
Record fetch_response : Type := {
  resp_status : Z;
  resp_text : outcome text
}.

(** The outside world during one call of [render]: how each external
    call ends. [page_goto] resolves to the response's status, or to
    [None] when the navigation has no response. *)
Record world : Type := {
  portPromise : outcome N;
  page_goto : text -> outcome (option Z);
  page_waitForSelector : text -> outcome unit;
  page_content : outcome text;
  fetch : text -> outcome fetch_response;
  toMatchSnapshot : nat -> outcome unit
}.

(** The same world, with another outcome for the selector wait. *)
Definition with_waitForSelector (w : world) (r : text -> outcome unit) : world :=
  {| portPromise := portPromise w;
     page_goto := page_goto w;
     page_waitForSelector := r;
     page_content := page_content w;
     fetch := fetch w;
     toMatchSnapshot := toMatchSnapshot w |}.

Definition assertion_failed : error := "expect: assertion failed".

(** [expect(actual).toBe(expected)] on numbers. *)
Definition expect_toBe (actual expected : Z) : eff event unit :=
  if Z.eqb actual expected then ret tt else throw assertion_failed.

(** [expect(received).toMatch(expected)]: for a string, and for a
    regular expression made of literal characters, the received text
    must contain the expected one. *)
Definition expect_toMatch (received expected : text) : eff event unit :=
  if includes expected received then ret tt else throw assertion_failed.

(** [expect(s).toBeTruthy()] on a string. *)
Definition expect_toBeTruthy (s : text) : eff event unit :=
  if truthy s then ret tt else throw assertion_failed.

(** [response?.status() || 0] *)
Definition status_or_zero (response : option Z) : Z :=
  match response with
  | Some status => if Z.eqb status 0 then 0%Z else status
  | None => 0%Z
  end.

Definition table_selector : text := txt ".markdown table".

Definition url_of (port : N) (path : text) : text :=
  txt "http://127.0.0.1:" ++ txt (NilZero.string_of_uint (N.to_uint port)) ++ path.

(** The calls of interest in a log. *)
Definition is_fetch (ev : event) : bool :=
  match ev with Fetch _ => true | _ => false end.


(** [handleComponentName] *)
Definition handleComponentName (name : text) : text :=
  let parts := split slash name in
  let componentName := nth (length parts - 1) parts [] in
  replace (txt "-") [] (replace (txt "-cn") [] (toLowerCase componentName)).

(** The component name as the specification words it: the last segment,
    lower-cased, with every locale marker and every hyphen removed. *)
Fixpoint remove_all (fuel : nat) (pat s : text) : text :=
  match fuel with
  | O => s
  | S fuel' =>
      if includes pat s then remove_all fuel' pat (replace pat [] s) else s
  end.

Definition componentName_spec (name : text) : text :=
  let segment := toLowerCase (List.last (split slash name) []) in
  let unmarked := remove_all (length segment) (txt "-cn") segment in
  remove_all (length unmarked) (txt "-") unmarked.

Section Pipeline.

(** The parsed document and the queries the script makes on it:
    [load(html, { xml: true })], [$('title').first().text()],
    [$('h1').text()] and [$('.markdown table').length]. *)
Variable Doc : Type.
Variable load : text -> Doc.
Variable title_text : Doc -> text.
Variable h1_text : Doc -> text.
Variable markdown_tables : Doc -> nat.

(** The body of the [try] block of [render]. *)
Definition primary (w : world) (url : text) : eff event (Z * Doc) :=
  response <- call (Goto url 10000%N) (page_goto w url) ;;
  call (Settle 3000%N) (Returned tt) ;;;
  try_catch
    (call (WaitForSelector table_selector 2000%N)
          (page_waitForSelector w table_selector))
    (fun _ => ret tt) ;;;
  html <- call Content (page_content w) ;;
  let doc := load html in
  ret (status_or_zero response, doc).

(** The [catch] block of [render]. *)
Definition fallback (w : world) (url : text) (e : error) : eff event (Z * Doc) :=
  call (ConsoleError url e) (Returned tt) ;;;
  resp <- call (Fetch url) (fetch w url) ;;
  html <- call ReadBody (resp_text resp) ;;
  let doc := load html in
  ret (resp_status resp, doc).

Definition render (w : world) (path : text) : eff event (Z * Doc) :=
  port <- call AwaitPort (portPromise w) ;;
  let url := url_of port path in
  try_catch (primary w url) (fallback w url).

Definition expectComponent (w : world) (component : text) : eff event unit :=
  r <- render w (txt "/" ++ component ++ txt "/") ;;
  let (status, doc) := r in
  expect_toBe status 200 ;;;
  let h1Text := toLowerCase (h1_text doc) in
  let expectedText := handleComponentName component in
  (if truthy expectedText && truthy h1Text
   then expect_toMatch h1Text expectedText else ret tt) ;;;
  let tables := markdown_tables doc in
  call (ConsoleLog component tables) (Returned tt) ;;;
  call (MatchSnapshot tables) (toMatchSnapshot w tables).

(** The two home-page scenarios: the title is matched only when it
    already contains the phrase. *)
Definition basic_page (path : text) (w : world) : eff event unit :=
  r <- render w path ;;
  let (status, doc) := r in
  expect_toBe status 200 ;;;
  let title := title_text doc in
  if truthy title && includes (txt "Ant Design") title
  then expect_toMatch title (txt "Ant Design") else ret tt.

(** The overview and resources scenarios: the heading is matched
    whenever it is not empty. *)
Definition heading_page (path phrase : text) (w : world) : eff event unit :=
  r <- render w path ;;
  let (status, doc) := r in
  expect_toBe status 200 ;;;
  let h1Text := h1_text doc in
  if truthy h1Text then expect_toMatch h1Text phrase else ret tt.

(** A registered test: [it(title, body, timeout)]. *)
Record test : Type := {
  title : text;
  body : world -> eff event unit;
  timeout : N
}.

Definition it (title : text) (body : world -> eff event unit) (timeout : N)
    (registry : list test) : list test :=
  registry ++ [{| title := title; body := body; timeout := timeout |}].

Definition basic_pages_en := basic_page (txt "/").
Definition basic_pages_zh := basic_page (txt "/index-cn").
Definition overview_en := heading_page (txt "/components/overview") (txt "Overview").
Definition overview_zh := heading_page (txt "/components/overview-cn") (txt "组件总览").
Definition resource_en := heading_page (txt "/docs/resources") (txt "Resources").
Definition resource_zh := heading_page (txt "/docs/resources-cn") (txt "资源").

Definition fixed_scenarios (registry : list test) : list test :=
  it (txt "Resource zh") resource_zh 15000%N
 (it (txt "Resource en") resource_en 15000%N
 (it (txt "Overview zh") overview_zh 15000%N
 (it (txt "Overview en") overview_en 15000%N
 (it (txt "Basic Pages zh") basic_pages_zh 15000%N
 (it (txt "Basic Pages en") basic_pages_en 15000%N registry))))).

(** The loop at the end of [describe]: the registry after it. *)
Definition component_scenarios (components : list text) (registry : list test)
    : list test :=
  fold_left
    (fun registry component =>
       if length (split slash component) <? 3 then
         it (txt "Component " ++ component ++ txt " en Page")
            (fun w => expectComponent w component ;;; expect_toBeTruthy component)
            15000%N
        (it (txt "Component " ++ component ++ txt " zh Page")
            (fun w =>
               expectComponent w (component ++ txt "-cn") ;;;
               expect_toBeTruthy component)
            15000%N
            registry)
       else registry)
    components registry.

(** The two scenarios of one component: the locale-suffixed page and the
    base page. *)
Definition zh_page (component : text) : test :=
  {| title := txt "Component " ++ component ++ txt " zh Page";
     body := fun w =>
       expectComponent w (component ++ txt "-cn") ;;; expect_toBeTruthy component;
     timeout := 15000%N |}.

Definition en_page (component : text) : test :=
  {| title := txt "Component " ++ component ++ txt " en Page";
     body := fun w =>
       expectComponent w component ;;; expect_toBeTruthy component;
     timeout := 15000%N |}.

(** The scenarios one inventory entry contributes. *)
Definition scenarios_of (component : text) : list test :=
  if length (split slash component) <? 3
  then [zh_page component; en_page component]
  else [].

Definition site_test (components : list text) : list test :=
  component_scenarios components (fixed_scenarios []).

End Pipeline.

End Render.

(* ===================================================================== *)
(** ** Teardown *)
(* ===================================================================== *)

Module Teardown.
Import Effects.
Local Open Scope eff_scope.

Inductive event : Type := BrowserClose | ServerClose.

(** The shared session when [afterAll] runs: [browser] and [server] are
    [None] when the variable was never assigned; otherwise they hold the
    outcome their [close] will have. *)
Record session : Type := {
  browser : option (outcome unit);
  server : option (outcome unit)
}.

Definition afterAll (s : session) : eff event unit :=
  match browser s with
  | Some close => call BrowserClose close
  | None => ret tt
  end ;;;
  match server s with
  | Some close => call ServerClose close
  | None => ret tt
  end.

End Teardown.

(* ===================================================================== *)
(** ** Polyfills *)
(* ===================================================================== *)

Module Polyfill.

(** A JavaScript string: its UTF-16 code units. *)
Definition jsstring := list N.

Definition is_high_surrogate (u : N) : bool := (0xD800 <=? u)%N && (u <=? 0xDBFF)%N.
Definition is_low_surrogate (u : N) : bool := (0xDC00 <=? u)%N && (u <=? 0xDFFF)%N.

(** The scalar values of a string; a surrogate without its partner
    becomes U+FFFD. *)
Fixpoint scalar_values (s : jsstring) : list N :=
  match s with
  | [] => []
  | u :: rest =>
      if is_high_surrogate u then
        match rest with
        | l :: rest' =>
            if is_low_surrogate l
            then (0x10000 + (u - 0xD800) * 0x400 + (l - 0xDC00))%N :: scalar_values rest'
            else 0xFFFD%N :: scalar_values rest
        | [] => [0xFFFD%N]
        end
      else if is_low_surrogate u then 0xFFFD%N :: scalar_values rest
      else u :: scalar_values rest
  end.

Definition byte_of (n : N) : Byte.byte :=
  match Byte.of_N (n mod 256) with Some b => b | None => Byte.x00 end.

Definition utf8 (c : N) : list Byte.byte :=
  if (c <? 0x80)%N then [byte_of c]
  else if (c <? 0x800)%N then
    [byte_of (0xC0 + c / 0x40); byte_of (0x80 + c mod 0x40)]
  else if (c <? 0x10000)%N then
    [byte_of (0xE0 + c / 0x1000); byte_of (0x80 + (c / 0x40) mod 0x40);
     byte_of (0x80 + c mod 0x40)]
  else
    [byte_of (0xF0 + c / 0x40000); byte_of (0x80 + (c / 0x1000) mod 0x40);
     byte_of (0x80 + (c / 0x40) mod 0x40); byte_of (0x80 + c mod 0x40)].

(** [new TextEncoder().encode(s)] *)
Definition encode (s : jsstring) : list Byte.byte :=
  flat_map utf8 (scalar_values s).

(** One element of the [bits] array: a string, or a buffer. *)
Inductive bit : Type :=
| StringBit (s : jsstring)
| BufferBit (bytes : list Byte.byte).

Definition byteLength (bytes : list Byte.byte) : N := N.of_nat (length bytes).

Record file_options : Type := {
  opt_type : option jsstring;
  opt_lastModified : option Z
}.

Record MockFile : Type := {
  bits : list bit;
  name : jsstring;
  type : jsstring;
  lastModified : Z;
  size : N
}.

(** The constructor; [now] is [Date.now()]. *)
Definition new_MockFile (now : Z) (bits : list bit) (filename : jsstring)
    (options : file_options) : MockFile :=
  {| bits := bits;
     name := filename;
     type := match opt_type options with
             | Some ((_ :: _) as t) => t
             | _ => []
             end;
     lastModified := match opt_lastModified options with
                     | Some t => if Z.eqb t 0 then now else t
                     | None => now
                     end;
     size := fold_left
               (fun size bit =>
                  match bit with
                  | StringBit s => (size + N.of_nat (length (encode s)))%N
                  | BufferBit b => (size + byteLength b)%N
                  end)
               bits 0%N |}.

(** What one bit contributes to [size], and their sum. *)
Definition bit_size (b : bit) : N :=
  match b with
  | StringBit s => N.of_nat (length (encode s))
  | BufferBit bytes => byteLength bytes
  end.

Definition sum_of_sizes (bits : list bit) : N :=
  fold_right N.add 0%N (map bit_size bits).

Section Join.

(** How [join] prints a buffer (its [toString]). *)
Variable buffer_toString : list Byte.byte -> jsstring.

Definition bit_toString (b : bit) : jsstring :=
  match b with
  | StringBit s => s
  | BufferBit bytes => buffer_toString bytes
  end.

(** [this.bits.join('')], the value the promise of [text()] holds. *)
Definition text (f : MockFile) : jsstring :=
  concat (map bit_toString (bits f)).

End Join.

Section FormData.

Variable V : Type.

(** [get] answers [null] for a missing name and [undefined] for an
    empty array. *)
Inductive got : Type := Value (v : V) | Null | Undefined.

(** [this._data]: each name with its array of values. The order of the
    names, which only [entries], [keys] and [values] observe, is not
    kept. *)
Definition new_MockFormData : gmap string (list V) := ∅.

Definition append (name : string) (value : V) (data : gmap string (list V))
    : gmap string (list V) :=
  let data := match data !! name with
              | Some _ => data
              | None => <[name := []]> data
              end in
  match data !! name with
  | Some values => <[name := values ++ [value]]> data
  | None => data
  end.

Definition get (name : string) (data : gmap string (list V)) : got :=
  match data !! name with
  | Some (v :: _) => Value v
  | Some [] => Undefined
  | None => Null
  end.

Definition getAll (name : string) (data : gmap string (list V)) : list V :=
  match data !! name with
  | Some values => values
  | None => []
  end.

Definition has (name : string) (data : gmap string (list V)) : bool :=
  match data !! name with Some _ => true | None => false end.

Definition delete (name : string) (data : gmap string (list V))
    : gmap string (list V) :=
  base.delete name data.

Definition set (name : string) (value : V) (data : gmap string (list V))
    : gmap string (list V) :=
  <[name := [value]]> data.

(** The calls that change a form. *)
Inductive op : Type :=
| Append (name : string) (value : V)
| Set_ (name : string) (value : V)
| Delete (name : string).

Definition apply_op (data : gmap string (list V)) (o : op) : gmap string (list V) :=
  match o with
  | Append n v => append n v data
  | Set_ n v => set n v data
  | Delete n => delete n data
  end.

Definition run (ops : list op) : gmap string (list V) :=
  fold_left apply_op ops new_MockFormData.

(** [writes name o]: [o] appends or sets [name]. *)
Definition writes (name : string) (o : op) : bool :=
  match o with
  | Append n _ | Set_ n _ => String.eqb n name
  | Delete _ => false
  end.

(** What the calls, read in order, leave under one name: the values
    appended since the last [set] or [delete] of that name. *)
Definition track (name : string) (values : list V) (o : op) : list V :=
  match o with
  | Append n v => if String.eqb n name then values ++ [v] else values
  | Set_ n v => if String.eqb n name then [v] else values
  | Delete n => if String.eqb n name then [] else values
  end.

Definition values_of (name : string) (ops : list op) : list V :=
  fold_left (track name) ops [].

End FormData.

(** [view.set(source, offset)] on a [Uint8Array]: a [RangeError] ([None])
    when the source does not fit. *)
Definition view_set (view source : list Byte.byte) (offset : nat)
    : option (list Byte.byte) :=
  if offset + length source <=? length view
  then Some (firstn offset view ++ source ++ skipn (offset + length source) view)
  else None.

(** A bit as [arrayBuffer()] sees it. For a bit that is not a string:
    the bytes of its buffer ([byteLength] of them), and what
    [new Uint8Array(bit)] holds: those same bytes for an [ArrayBuffer]
    or a byte-wide typed array, one byte per element (the element as an
    unsigned byte) for a wider typed array, and [None] when the
    conversion throws (a BigInt array). *)
Inductive part : Type :=
| StringPart (s : jsstring)
| BufferPart (raw : list Byte.byte) (uint8 : option (list Byte.byte)).

(** The same bit, as the constructor sees it. *)
Definition part_bit (p : part) : bit :=
  match p with
  | StringPart s => StringBit s
  | BufferPart raw _ => BufferBit raw
  end.

(** An entry of [buffers]
    ([typeof bit === 'string' ? encoder.encode(bit) : bit]): its
    [byteLength], and [new Uint8Array(buffer)]. *)
Definition buffer_byteLength (p : part) : nat :=
  match p with
  | StringPart s => length (encode s)
  | BufferPart raw _ => length raw
  end.

Definition buffer_uint8 (p : part) : option (list Byte.byte) :=
  match p with
  | StringPart s => Some (encode s)
  | BufferPart _ uint8 => uint8
  end.

(** [arrayBuffer()] of a file with these bits: a zero-filled buffer of
    the total length, filled by one [view.set] per bit at a running
    offset that advances by the [byteLength] of the bit; [None] when the
    promise rejects. *)
Definition arrayBuffer (bits : list part) : option (list Byte.byte) :=
  let buffers := bits in
  let totalLength :=
    fold_left (fun sum buf => sum + buffer_byteLength buf) buffers 0 in
  let result := repeat Byte.x00 totalLength in
  option_map fst
    (fold_left
       (fun state buffer =>
          match state with
          | Some (view, offset) =>
              match buffer_uint8 buffer with
              | Some source =>
                  match view_set view source offset with
                  | Some view' => Some (view', offset + buffer_byteLength buffer)
                  | None => None
                  end
              | None => None
              end
          | None => None
          end)
       buffers (Some (result, 0))).

(** A bit whose conversion returns no more elements than the bit has
    bytes, as every buffer and typed array does. *)
Definition fits (p : part) : bool :=
  match buffer_uint8 p with
  | Some source => length source <=? buffer_byteLength p
  | None => false
  end.

Definition throws (p : part) : bool :=
  match buffer_uint8 p with Some _ => false | None => true end.

(** What a bit leaves in the result: its elements, then zeros up to its
    [byteLength]. *)
Definition slot (p : part) : list Byte.byte :=
  match buffer_uint8 p with
  | Some source => source ++ repeat Byte.x00 (buffer_byteLength p - length source)
  | None => []
  end.

(** The object [this] is bound to when [read] runs: the reader returned
    by [getReader()] when it is called as [reader.read()]; only a file
    has [bits]. *)
Inductive receiver : Type :=
| ThisFile (f : MockFile)
| ThisReader.

Definition this_bits (this : receiver) : option (list bit) :=
  match this with
  | ThisFile f => Some (bits f)
  | ThisReader => None
  end.

Inductive read_result : Type :=
| Done
| Chunk (value : list Byte.byte).

Definition not_an_object : Effects.error :=
  "TypeError: Cannot read properties of undefined (reading 'join')".

Section Stream.

Variable buffer_toString : list Byte.byte -> jsstring.

(** [read()], on the closure variable [done]: the new value of [done]
    and how the promise settles. [done] is set before the chunk is
    computed. *)
Definition read (this : receiver) (done : bool)
    : bool * Effects.outcome read_result :=
  if done then (done, Effects.Returned Done)
  else
    match this_bits this with
    | Some bs =>
        (true,
         Effects.Returned
           (Chunk (encode (concat (map (bit_toString buffer_toString) bs)))))
    | None => (true, Effects.Thrown not_an_object)
    end.

(** [n] calls of [reader.read()] on one reader, from [done = false]. *)
Fixpoint reads (n : nat) (done : bool) : list (Effects.outcome read_result) :=
  match n with
  | O => []
  | S n' => let (done', r) := read ThisReader done in r :: reads n' done'
  end.

End Stream.

End Polyfill.

(* ===================================================================== *)
(** ** Setup *)
(* ===================================================================== *)

Module Setup.
Import Effects.

Inductive event : Type :=
| AwaitPort
| CreateServer
| Listen (port : N)
| LogServer (port : N)
| Launch
| NewPage
| SetViewport (width height : N)
| LogBrowser.

(** How each external call of [beforeAll] ends. *)
Record world : Type := {
  portPromise : outcome N;
  createServer : outcome unit;
  listen : N -> outcome unit;
  launch : outcome unit;
  newPage : outcome unit;
  setViewport : outcome unit
}.

(** Which of the variables [server], [browser] and [page] of [describe]
    have been assigned. *)
Record vars : Type := {
  server_set : bool;
  browser_set : bool;
  page_set : bool
}.

Definition unassigned : vars :=
  {| server_set := false; browser_set := false; page_set := false |}.

(** A step of the hook: the variables after it, the calls it made, and
    how it ended. *)
Definition hook (A : Type) : Type := vars -> vars * list event * outcome A.

Definition hret {A} (a : A) : hook A := fun v => (v, [], Returned a).

Definition hbind {A B} (m : hook A) (f : A -> hook B) : hook B :=
  fun v =>
    match m v with
    | (v', log, Returned a) =>
        match f a v' with (v'', log', r) => (v'', log ++ log', r) end
    | (v', log, Thrown e) => (v', log, Thrown e)
    end.

Definition hcall {A} (ev : event) (r : outcome A) : hook A :=
  fun v => (v, [ev], r).

Definition assign (f : vars -> vars) : hook unit :=
  fun v => (f v, [], Returned tt).

Definition set_server (v : vars) : vars :=
  {| server_set := true; browser_set := browser_set v; page_set := page_set v |}.
Definition set_browser (v : vars) : vars :=
  {| server_set := server_set v; browser_set := true; page_set := page_set v |}.
Definition set_page (v : vars) : vars :=
  {| server_set := server_set v; browser_set := browser_set v; page_set := true |}.

Definition beforeAll (w : world) : hook unit :=
  hbind (hcall AwaitPort (portPromise w)) (fun port =>
  hbind (hcall CreateServer (createServer w)) (fun _ =>
  hbind (assign set_server) (fun _ =>
  hbind (hcall (Listen port) (listen w port)) (fun _ =>
  hbind (hcall (LogServer port) (Returned tt)) (fun _ =>
  hbind (hcall Launch (launch w)) (fun _ =>
  hbind (assign set_browser) (fun _ =>
  hbind (hcall NewPage (newPage w)) (fun _ =>
  hbind (assign set_page) (fun _ =>
  hbind (hcall (SetViewport 1280 800) (setViewport w)) (fun _ =>
  hcall LogBrowser (Returned tt))))))))))).

(** The session [afterAll] finds: a variable that was assigned holds
    the resource, whose [close] ends as given. *)
Definition session_after (v : vars) (browser_close server_close : outcome unit)
    : Teardown.session :=
  {| Teardown.browser := if browser_set v then Some browser_close else None;
     Teardown.server := if server_set v then Some server_close else None |}.

(** The calls that returned. *)
Definition server_created (w : world) : bool :=
  match portPromise w, createServer w with
  | Returned _, Returned _ => true
  | _, _ => false
  end.

Definition browser_launched (w : world) : bool :=
  match portPromise w with
  | Returned port =>
      match createServer w, listen w port, launch w with
      | Returned _, Returned _, Returned _ => true
      | _, _, _ => false
      end
  | Thrown _ => false
  end.

End Setup.

(* ===================================================================== *)
(** ** Sample documents and worlds *)
(* ===================================================================== *)

Module Samples.
Import Text Effects Render.

(** A document reduced to what the script reads from it. *)
Record page : Type := {
  page_title : text;
  page_h1 : text;
  page_tables : nat
}.

(** A parser for markup of the form [title|h1]: the text before the
    first bar is the title, the text after it the heading. *)
Definition sample_load (html : text) : page :=
  match split "|"%char html with
  | [t; h] => {| page_title := t; page_h1 := h; page_tables := 0 |}
  | _ => {| page_title := html; page_h1 := []; page_tables := 0 |}
  end.

(** The browser works: status 200 and the given markup. *)
Definition browser_world (html : text) : world :=
  {| portPromise := Returned 3000%N;
     page_goto := fun _ => Returned (Some 200%Z);
     page_waitForSelector := fun _ => Returned tt;
     page_content := Returned html;
     fetch := fun _ => Thrown "fetch failed";
     toMatchSnapshot := fun _ => Returned tt |}.

(** The page has no table: the selector wait times out. *)
Definition no_table_world (html : text) : world :=
  with_waitForSelector (browser_world html) (fun _ => Thrown "waiting for selector failed").

(** The navigation times out; the plain fetch answers. *)
Definition fetch_world (status : Z) (html : text) : world :=
  {| portPromise := Returned 3000%N;
     page_goto := fun _ => Thrown "Navigation timeout of 10000 ms exceeded";
     page_waitForSelector := fun _ => Returned tt;
     page_content := Thrown "no page";
     fetch := fun _ => Returned {| resp_status := status; resp_text := Returned html |};
     toMatchSnapshot := fun _ => Returned tt |}.

End Samples.

(* ===================================================================== *)
(** ** Properties of the string primitives *)
(* ===================================================================== *)

Module TextFacts.
Import Text.

Lemma text_eqb_eq a : forall b, text_eqb a b = true <-> a = b.
Proof.
  induction a as [|x a IH]; intros [|y b]; simpl; try (split; [discriminate|congruence]).
  - tauto.
  - rewrite andb_true_iff, Ascii.eqb_eq, IH. split; [intros [-> ->]|intros [= -> ->]]; auto.
Qed.

Lemma text_eqb_refl a : text_eqb a a = true.
Proof. now apply text_eqb_eq. Qed.

Lemma strip_prefix_Some p : forall s r, strip_prefix p s = Some r <-> s = p ++ r.
Proof.
  induction p as [|x p IH]; intros s r; simpl.
  - split; congruence.
  - destruct s as [|y s]; [split; discriminate|].
    destruct (Ascii.eqb x y) eqn:E.
    + apply Ascii.eqb_eq in E as ->. rewrite IH. split; congruence.
    + apply Ascii.eqb_neq in E. split; [discriminate|congruence].
Qed.

Lemma startsWith_spec p s : startsWith p s = true <-> exists r, s = p ++ r.
Proof.
  unfold startsWith. destruct (strip_prefix p s) as [r|] eqn:E.
  - apply strip_prefix_Some in E. split; eauto.
  - split; [discriminate|]. intros [r Hr]. apply strip_prefix_Some in Hr. congruence.
Qed.

Lemma strip_suffix_Some sfx s pre : strip_suffix sfx s = Some pre <-> s = pre ++ sfx.
Proof.
  unfold strip_suffix. destruct (strip_prefix (rev sfx) (rev s)) as [r|] eqn:E; simpl.
  - apply strip_prefix_Some in E. split.
    + intros [= <-]. rewrite <- (rev_involutive s), E, rev_app_distr.
      now rewrite rev_involutive.
    + intros ->. rewrite rev_app_distr in E. apply app_inv_head in E.
      now rewrite <- E, rev_involutive.
  - split; [discriminate|]. intros ->. rewrite rev_app_distr in E.
    assert (H : strip_prefix (rev sfx) (rev sfx ++ rev pre) = Some (rev pre))
      by now apply strip_prefix_Some.
    congruence.
Qed.

Lemma endsWith_spec sfx s : endsWith sfx s = true <-> exists pre, s = pre ++ sfx.
Proof.
  unfold endsWith. rewrite startsWith_spec. split.
  - intros [r Hr]. exists (rev r).
    rewrite <- (rev_involutive s), Hr, rev_app_distr. now rewrite rev_involutive.
  - intros [pre ->]. exists (rev pre). now rewrite rev_app_distr.
Qed.

Lemma endsWith_app sfx p s : endsWith sfx s = true -> endsWith sfx (p ++ s) = true.
Proof.
  rewrite !endsWith_spec. intros [pre ->]. exists (p ++ pre). now rewrite app_assoc.
Qed.

Lemma canon_app a b : canon (a ++ b) = canon a ++ canon b.
Proof. apply map_app. Qed.

Lemma canon_cons c a : canon (c :: a) = upper_char c :: canon a.
Proof. reflexivity. Qed.

Lemma includes_nil pat : pat <> [] -> includes pat [] = false.
Proof. destruct pat; [congruence|reflexivity]. Qed.

Lemma replace_absent pat repl : forall s,
  includes pat s = false -> replace pat repl s = s.
Proof.
  induction s as [|c s IH]; cbn [includes replace]; unfold startsWith;
    destruct (strip_prefix pat _); cbn [orb]; try discriminate; intros H.
  - reflexivity.
  - now rewrite IH.
Qed.

Lemma nth_last (l : list text) : nth (length l - 1) l [] = List.last l [].
Proof.
  induction l as [|a [|b l] IH]; try reflexivity.
  cbn [length Nat.sub] in *. rewrite Nat.sub_0_r in IH.
  cbn [nth List.last] in *. exact IH.
Qed.

Lemma split_nonempty sep s : Text.split sep s <> [].
Proof.
  destruct s as [|c s]; simpl; [discriminate|].
  destruct (Ascii.eqb c sep); [discriminate|].
  destruct (Text.split sep s); discriminate.
Qed.

End TextFacts.

(* ===================================================================== *)
(** ** Properties of the matcher *)
(* ===================================================================== *)

Module RegexFacts.
Import Text Regex.

#[local] Hint Constructors matches : core.

Lemma rmatch_sound ci r : forall s k out,
  rmatch ci r s k = Some out ->
  exists s', matches ci r s s' /\ k s' = Some out.
Proof.
  induction r as [|p|ps|r1 IH1 r2 IH2|r1 IH1 r2 IH2|r1 IH1|]; intros s k out H; simpl in H.
  - eauto.
  - destruct s as [|c s]; [discriminate|].
    destruct (chr_eqb ci p c) eqn:E; [eauto|discriminate].
  - destruct s as [|c s]; [discriminate|].
    destruct (existsb _ ps) eqn:E; [eauto|discriminate].
  - apply IH1 in H as (s1 & M1 & H). apply IH2 in H as (s2 & M2 & H). eauto.
  - destruct (rmatch ci r1 s k) eqn:E.
    + inversion H; subst. apply IH1 in E as (s' & M & E). eauto.
    + apply IH2 in H as (s' & M & H). eauto.
  - destruct (rmatch ci r1 s k) eqn:E.
    + inversion H; subst. apply IH1 in E as (s' & M & E). eauto.
    + eauto.
  - destruct s; [eauto|discriminate].
Qed.

Lemma rmatch_complete ci r s s' :
  matches ci r s s' ->
  forall k, k s' <> None -> rmatch ci r s k <> None.
Proof.
  induction 1 as [s|p c s E|ps c s E|r1 r2 s s1 s2 _ IH1 _ IH2
                 |r1 r2 s s' _ IH|r1 r2 s s' _ IH|r s s' _ IH|r s|];
    intros k Hk; simpl.
  - exact Hk.
  - now rewrite E.
  - now rewrite E.
  - apply IH1. now apply IH2.
  - specialize (IH k Hk). destruct (rmatch ci r1 s k); congruence.
  - destruct (rmatch ci r1 s k); [congruence|]. now apply IH.
  - specialize (IH k Hk). destruct (rmatch ci r s k); congruence.
  - destruct (rmatch ci r s k); congruence.
  - exact Hk.
Qed.

(** A literal matches exactly the inputs that start with one of its
    case variants. *)
Lemma matches_lit_inv w : forall s s',
  matches true (lit w) s s' ->
  exists a, s = a ++ s' /\ canon a = canon (txt w).
Proof.
  unfold lit. induction (txt w) as [|c l IH]; intros s s' M; simpl in M.
  - inversion M; subst. now exists [].
  - inversion M as [| | |r1 r2 x s1 s2 M1 M2| | | | |]; subst.
    inversion M1 as [|p d x E| | | | | | |]; subst.
    apply IH in M2 as (a & -> & Ha).
    exists (d :: a). split; [reflexivity|]. simpl. rewrite Ha. f_equal.
    unfold chr_eqb in E. apply Ascii.eqb_eq in E. now symmetry.
Qed.

Lemma lit_matches w : forall a s,
  canon a = canon (txt w) -> matches true (lit w) (a ++ s) s.
Proof.
  unfold lit. induction (txt w) as [|c l IH]; intros a s Ha; simpl.
  - destruct a; [constructor|discriminate].
  - destruct a as [|d a]; [discriminate|]. simpl in Ha. inversion Ha as [[Hd Hl]].
    simpl. econstructor; [|apply IH; exact Hl].
    constructor. unfold chr_eqb. apply Ascii.eqb_eq. now symmetry.
Qed.

(** Leftmost-match reading of [replace_re]. *)
Lemma replace_re_at ci r repl : forall pre t rest,
  (forall p1 t1, pre = p1 ++ t1 -> t1 <> [] -> match_here ci r (t1 ++ t) = None) ->
  match_here ci r t = Some rest ->
  replace_re ci r repl (pre ++ t) = pre ++ repl ++ rest.
Proof.
  induction pre as [|c pre IH]; intros t rest Hmin Ht.
  - simpl. destruct t; simpl; now rewrite Ht.
  - assert (H0 := Hmin [] (c :: pre) eq_refl ltac:(discriminate)).
    simpl in *. rewrite H0. f_equal. apply IH; [|exact Ht].
    intros p1 t1 -> Hne. apply (Hmin (c :: p1) t1); [reflexivity|exact Hne].
Qed.

Lemma replace_re_none ci r repl : forall s,
  (forall pre t, s = pre ++ t -> match_here ci r t = None) ->
  replace_re ci r repl s = s.
Proof.
  induction s as [|c s IH]; intros Hno.
  - simpl. now rewrite (Hno [] [] eq_refl).
  - simpl. rewrite (Hno [] (c :: s) eq_refl). f_equal.
    apply IH. intros pre t ->. apply (Hno (c :: pre) t). reflexivity.
Qed.

(** When every match runs to the end of the input, replacing by the
    empty string truncates the input at the leftmost match. *)
Lemma replace_re_prefix ci r : forall s,
  (forall t rest, match_here ci r t = Some rest -> rest = []) ->
  (replace_re ci r [] s = s /\
   forall pre t, s = pre ++ t -> match_here ci r t = None)
  \/ (exists t, s = replace_re ci r [] s ++ t /\ match_here ci r t = Some []).
Proof.
  intros s Hanch. induction s as [|c s IH]; simpl.
  - destruct (match_here ci r []) as [rest|] eqn:E.
    + right. exists []. pose proof (Hanch _ _ E); subst rest. now split.
    + left. split; [reflexivity|]. intros pre t Hs.
      symmetry in Hs. apply app_eq_nil in Hs as [_ ->]. exact E.
  - destruct (match_here ci r (c :: s)) as [rest|] eqn:E.
    + right. exists (c :: s). pose proof (Hanch _ _ E); subst rest. now split.
    + destruct IH as [[Heq Hno]|(t & Hs & Ht)].
      * left. split; [now rewrite Heq|].
        intros [|d pre] t Hs; simpl in Hs.
        -- now subst t.
        -- inversion Hs; subst. now apply (Hno pre t).
      * right. exists t. split; [|exact Ht]. simpl. now rewrite <- Hs.
Qed.

End RegexFacts.

(* ===================================================================== *)
(** ** Properties of the page inventory *)
(* ===================================================================== *)

Module InventoryFacts.
Import Text Regex Inventory TextFacts RegexFacts.

Ltac invert_matches :=
  repeat match goal with
  | H : matches _ (lit _) _ _ |- _ =>
      apply matches_lit_inv in H as (? & -> & ?)
  | H : matches _ (Cat _ _) _ _ |- _ => inversion H; clear H; subst
  | H : matches _ (Alt _ _) _ _ |- _ => inversion H; clear H; subst
  | H : matches _ (Opt _) _ _ |- _ => inversion H; clear H; subst
  | H : matches _ (Cls _) _ _ |- _ => inversion H; clear H; subst
  | H : matches _ Eos _ _ |- _ => inversion H; clear H; subst
  end.

Lemma separator_canon c :
  existsb (fun p => chr_eqb true p c) [slash; backslash] = true ->
  upper_char c = slash \/ upper_char c = backslash.
Proof.
  unfold existsb, chr_eqb. rewrite !orb_true_iff, !Ascii.eqb_eq.
  intros [H|[H|H]]; [left|right|discriminate]; rewrite <- H; reflexivity.
Qed.

Lemma canon_separator c :
  upper_char c = slash \/ upper_char c = backslash ->
  existsb (fun p => chr_eqb true p c) [slash; backslash] = true.
Proof.
  unfold existsb, chr_eqb. rewrite !orb_true_iff, !Ascii.eqb_eq.
  intros [H|H]; rewrite H; [left|right; left]; reflexivity.
Qed.

(** Every match of [suffix_re] runs to the end of the input, and the
    matched text is one of the [suffix_forms] up to case. *)
Lemma suffix_re_sound s rest :
  match_here true suffix_re s = Some rest ->
  rest = [] /\ is_form (canon s) = true.
Proof.
  intros H. apply rmatch_sound in H as (s' & M & [= <-]).
  unfold suffix_re in M. invert_matches; (split; [reflexivity|]);
    repeat match goal with
    | H : existsb _ [slash; backslash] = true |- _ =>
        apply separator_canon in H as [H|H]
    end;
    rewrite ?app_nil_r, <- ?app_comm_cons, ?canon_cons, ?canon_app;
    repeat match goal with H : canon _ = _ |- _ => rewrite H; clear H end;
    repeat match goal with H : upper_char _ = _ |- _ => rewrite H; clear H end;
    vm_compute; reflexivity.
Qed.

Lemma opt_lit_matches w a s :
  a = [] \/ canon a = canon (txt w) -> matches true (Opt (lit w)) (a ++ s) s.
Proof.
  intros [->|H]; [apply M_OptNone|apply M_OptSome, lit_matches, H].
Qed.

Lemma suffix_re_complete s :
  is_form (canon s) = true -> match_here true suffix_re s = Some [].
Proof.
  intros H.
  assert (M : matches true suffix_re s []).
  { unfold is_form in H. apply existsb_exists in H as (f & Hf & E).
    apply text_eqb_eq in E. subst f. unfold suffix_forms in Hf.
    apply in_flat_map in Hf as (i & Hi & Hf).
    apply in_flat_map in Hf as (t & Ht & Hf).
    apply in_map_iff in Hf as (l & E & Hl). symmetry in E.
    apply map_eq_app in E as (a & s1 & -> & Ha & E).
    apply map_eq_app in E as (b & s2 & -> & Hb & E).
    apply map_eq_app in E as (c & d & -> & Hc & Hd).
    fold (canon a) in Ha. fold (canon b) in Hb. fold (canon c) in Hc.
    fold (canon d) in Hd. subst i t l.
    unfold suffix_re. apply M_Cat with (s1 := b ++ c ++ d).
    - unfold index_parts in Hi. cbn [In] in Hi. destruct Hi as [Hi|[Hi|[Hi|[]]]].
      + symmetry in Hi. apply map_eq_nil in Hi as ->. apply M_OptNone.
      + destruct a as [|x a]; [discriminate|]. rewrite !canon_cons in Hi.
        injection Hi as Hx Hi.
        apply M_OptSome. apply M_Cat with (s1 := a ++ b ++ c ++ d).
        * constructor. apply canon_separator. left. rewrite <- Hx. reflexivity.
        * apply lit_matches. now symmetry.
      + destruct a as [|x a]; [discriminate|]. rewrite !canon_cons in Hi.
        injection Hi as Hx Hi.
        apply M_OptSome. apply M_Cat with (s1 := a ++ b ++ c ++ d).
        * constructor. apply canon_separator. right. rewrite <- Hx. reflexivity.
        * apply lit_matches. now symmetry.
    - apply M_Cat with (s1 := c ++ d).
      { apply opt_lit_matches. unfold tab_parts in Ht. cbn [In] in Ht.
        destruct Ht as [Ht|[Ht|[]]].
        - left. symmetry in Ht. now apply map_eq_nil in Ht.
        - right. now symmetry. }
      apply M_Cat with (s1 := d).
      { unfold locale_parts in Hl. cbn [In] in Hl.
        destruct Hl as [Hl|[Hl|[Hl|[]]]].
        - symmetry in Hl. apply map_eq_nil in Hl as ->. apply M_OptNone.
        - apply M_OptSome, M_AltL, lit_matches. now symmetry.
        - apply M_OptSome, M_AltR, lit_matches. now symmetry. }
      apply M_Cat with (s1 := []); [|constructor].
      rewrite <- (app_nil_r d) at 1. now apply lit_matches. }
  destruct (match_here true suffix_re s) as [rest|] eqn:E.
  - now apply suffix_re_sound in E as [-> _].
  - exfalso. revert E. apply rmatch_complete with (s' := []); [exact M|discriminate].
Qed.

Lemma suffix_re_anchored t rest :
  match_here true suffix_re t = Some rest -> rest = [].
Proof. intros H. now apply suffix_re_sound in H. Qed.



Lemma slashes_app a b : slashes (a ++ b) = slashes a ++ slashes b.
Proof. apply map_app. Qed.

Lemma slashes_idem s : slashes (slashes s) = slashes s.
Proof.
  unfold slashes. rewrite map_map. apply map_ext. intros c.
  destruct (Ascii.eqb c backslash) eqn:E; [reflexivity|now rewrite E].
Qed.


Lemma variant_is_form i l :
  is_form (canon (slashes (index_suffix i ++ locale_suffix l ++ txt ".md"))) = true.
Proof. destruct i, l; vm_compute; reflexivity. Qed.

(** The normalized identifier is a prefix of the slash-normalized path. *)
Lemma normalizeId_prefix p : exists t, slashes p = normalizeId p ++ t.
Proof.
  unfold normalizeId. cbv zeta.
  destruct (replace_re_prefix true suffix_re (slashes p) suffix_re_anchored)
    as [[E _]|(t & E & _)].
  - exists []. now rewrite E, app_nil_r.
  - eauto.
Qed.

Lemma slashes_normalizeId p : slashes (normalizeId p) = normalizeId p.
Proof.
  destruct (normalizeId_prefix p) as (t & E).
  pose proof (slashes_idem p) as H. rewrite E, slashes_app in H.
  apply app_inj_1 in H; [tauto|]. unfold slashes. now rewrite length_map.
Qed.

(** The suffix-stripping replace leaves a text unchanged exactly when
    the text does not end in the extension. *)
Lemma strip_fixed_iff x :
  replace_re true suffix_re [] x = x <-> endsWith_ci (txt ".md") x = false.
Proof.
  destruct (replace_re_prefix true suffix_re x suffix_re_anchored)
    as [[E Hno]|(t & E & Ht)].
  - split; [intros _|intros _; exact E].
    destruct (endsWith_ci (txt ".md") x) eqn:W; [exfalso|reflexivity].
    unfold endsWith_ci in W. apply endsWith_spec in W as (u & W).
    apply map_eq_app in W as (y & m & -> & _ & Hm).
    assert (F : is_form (canon m) = true) by (unfold canon; rewrite Hm; vm_compute; reflexivity).
    apply suffix_re_complete in F. rewrite (Hno y m eq_refl) in F. discriminate.
  - assert (W : endsWith_ci (txt ".md") x = true).
    { apply suffix_re_sound in Ht as [_ F]. unfold is_form in F.
      apply existsb_exists in F as (f & Hf & Ef). apply text_eqb_eq in Ef.
      assert (G : forallb (endsWith (canon (txt ".md"))) suffix_forms = true)
        by (vm_compute; reflexivity).
      rewrite forallb_forall in G. specialize (G f Hf). rewrite <- Ef in G.
      unfold endsWith_ci. rewrite E, canon_app. now apply endsWith_app. }
    rewrite W. split; [|discriminate]. intros H. exfalso.
    rewrite H in E. rewrite <- (app_nil_r x) in E at 1.
    apply app_inv_head in E. subst t. vm_compute in Ht. discriminate.
Qed.

Lemma uniq_pair a : uniq [a; a] = [a].
Proof. unfold uniq. cbn [fold_left existsb app]. now rewrite text_eqb_refl. Qed.

(** C5 fails as stated: a stem that itself ends in a marker. The paths
    [components/button/index.md] and [components/button/index/index.md]
    differ only by the index form, [components/button/index.zh-cn.md] and
    [components/button/index.zh-cn.en-us.md] only by the locale (both
    are files the discovery pattern accepts); each pair yields two
    identifiers, and two inventory entries. *)
Lemma dedup_fails_on_marked_stems :
  (let stem := txt "components/button/index" in
   normalizeId (source_path stem Plain NoLocale) = txt "components/button" /\
   normalizeId (source_path stem Index NoLocale) = txt "components/button/index" /\
   normalizeId (source_path stem Plain NoLocale)
     <> normalizeId (source_path stem Index NoLocale)) /\
  (let stem := txt "components/button/index.zh-cn" in
   let p1 := source_path stem Plain NoLocale in
   let p2 := source_path stem Plain EnUs in
   discovered p1 = true /\ discovered p2 = true /\
   normalizeId p1 <> normalizeId p2 /\
   components [p1; p2]
     = [txt "components/button"; txt "components/button/index.zh-cn"]).
Proof.
  cbv zeta. repeat split; try (vm_compute; reflexivity);
    vm_compute; discriminate.
Qed.

(** C6 (amended). For every source path, normalizing its normalized
    identifier again returns it unchanged exactly when that identifier
    does not itself end in [.md] (in any letter case). *)
Theorem normalizeId_idempotent_iff p :
  normalizeId (normalizeId p) = normalizeId p <->
  endsWith_ci (txt ".md") (normalizeId p) = false.
Proof.
  unfold normalizeId at 1. cbv zeta. rewrite slashes_normalizeId.
  apply strip_fixed_iff.
Qed.

Lemma normalizeId_idempotent_iff_witness :
  endsWith_ci (txt ".md") (normalizeId (txt "components/button/index.zh-cn.md")) = false /\
  normalizeId (normalizeId (txt "components/button/index.zh-cn.md"))
  = normalizeId (txt "components/button/index.zh-cn.md").
Proof.
  split; [reflexivity|].
  apply (proj2 (normalizeId_idempotent_iff (txt "components/button/index.zh-cn.md"))).
  reflexivity.
Defined.

(** C6 fails as stated: [components/button/notes.md.md] matches the
    discovery pattern, its identifier [components/button/notes.md] still
    ends in the extension, and normalizing again strips it. *)
Lemma normalizeId_not_idempotent :
  let p := txt "components/button/notes.md.md" in
  discovered p = true /\
  normalizeId p = txt "components/button/notes.md" /\
  normalizeId (normalizeId p) = txt "components/button/notes" /\
  normalizeId (normalizeId p) <> normalizeId p.
Proof.
  cbv zeta. repeat split; try (vm_compute; reflexivity).
  vm_compute. discriminate.
Qed.

Lemma mem_In u L : existsb (text_eqb u) L = true <-> In u L.
Proof.
  rewrite existsb_exists. split.
  - intros (y & Hy & E). apply text_eqb_eq in E. now subst.
  - intros H. exists u. split; [exact H|apply text_eqb_refl].
Qed.

Lemma fronts_mem U V : existsb (text_eqb U) (fronts V) = is_form (U ++ V).
Proof.
  apply Bool.eq_iff_eq_true. rewrite mem_In. unfold fronts, is_form.
  rewrite in_flat_map, existsb_exists. split.
  - intros (F & HF & HU).
    destruct (strip_suffix V F) as [u|] eqn:E; [|destruct HU].
    destruct HU as [<-|[]]. apply strip_suffix_Some in E.
    exists F. split; [exact HF|]. apply text_eqb_eq. congruence.
  - intros (F & HF & E). apply text_eqb_eq in E. exists F. split; [exact HF|].
    assert (H : strip_suffix V F = Some U) by (apply strip_suffix_Some; congruence).
    rewrite H. now left.
Qed.

Lemma match_here_form s :
  match_here true suffix_re s = if is_form (canon s) then Some [] else None.
Proof.
  destruct (is_form (canon s)) eqn:F.
  - now apply suffix_re_complete.
  - destruct (match_here true suffix_re s) as [rest|] eqn:E; [|reflexivity].
    apply suffix_re_sound in E as [_ E]. congruence.
Qed.

Lemma replace_re_unfold ci r repl s :
  replace_re ci r repl s
  = match match_here ci r s with
    | Some rest => repl ++ rest
    | None => match s with [] => [] | c :: s' => c :: replace_re ci r repl s' end
    end.
Proof. destruct s; reflexivity. Qed.

(** With a suffix the pattern accepts, the replace cuts the text in
    front of it at the leftmost point from which a match can start. *)
Lemma replace_cut v :
  is_form (canon v) = true ->
  forall s, replace_re true suffix_re [] (s ++ v) = cut (fronts (canon v)) s.
Proof.
  intros Hv. induction s as [|c s IH].
  - rewrite replace_re_unfold, match_here_form. cbn [app]. rewrite Hv.
    cbn [cut]. now destruct (existsb _ _).
  - rewrite replace_re_unfold, match_here_form, canon_app, <- fronts_mem.
    cbn [cut]. destruct (existsb _ _); [reflexivity|].
    cbn [app]. now rewrite IH.
Qed.

Lemma cut_suffix_ext E1 E2 s :
  (forall pre t, s = pre ++ t ->
     existsb (text_eqb (canon t)) E1 = existsb (text_eqb (canon t)) E2) ->
  cut E1 s = cut E2 s.
Proof.
  induction s as [|c s IH]; intros H; cbn [cut].
  - rewrite (H [] [] eq_refl). now destruct (existsb _ E2).
  - rewrite (H [] (c :: s) eq_refl). destruct (existsb _ E2); [reflexivity|].
    f_equal. apply IH. intros pre t ->. apply (H (c :: pre) t). reflexivity.
Qed.

Lemma cut_fixed E s :
  cut E s = s <->
  forall pre t, s = pre ++ t -> t <> [] -> existsb (text_eqb (canon t)) E = false.
Proof.
  induction s as [|c s IH]; cbn [cut].
  - split; [|intros _; now destruct (existsb _ E)].
    intros _ pre t Hs Ht. symmetry in Hs. apply app_eq_nil in Hs as [_ ->].
    congruence.
  - destruct (existsb (text_eqb (canon (c :: s))) E) eqn:M.
    + split; [discriminate|]. intros H.
      specialize (H [] (c :: s) eq_refl ltac:(discriminate)). congruence.
    + split.
      * intros [= H] pre t Hs Ht. destruct pre as [|d pre]; cbn [app] in Hs.
        -- now subst t.
        -- injection Hs as _ Hs. exact (proj1 IH H pre t Hs Ht).
      * intros H. f_equal. apply IH. intros pre t -> Ht.
        apply (H (c :: pre) t); [reflexivity|exact Ht].
Qed.

Lemma endsWith_ci_spec m s :
  endsWith_ci m s = true <-> exists pre t, s = pre ++ t /\ canon t = canon m.
Proof.
  unfold endsWith_ci. rewrite endsWith_spec. split.
  - intros (p & H). apply map_eq_app in H as (pre & t & -> & _ & Ht). eauto.
  - intros (pre & t & -> & Ht). exists (canon pre). rewrite canon_app. now rewrite Ht.
Qed.

Lemma prefix_comparable (a : text) : forall b x r1 r2,
  x = a ++ r1 -> x = b ++ r2 -> startsWith a b = true \/ startsWith b a = true.
Proof.
  induction a as [|c a IH]; intros b x r1 r2 Ha Hb; [now left|].
  destruct b as [|d b]; [now right|].
  subst x. cbn [app] in Hb. injection Hb as <- Hb.
  destruct (IH b _ r1 r2 eq_refl Hb) as [H|H]; [left|right];
    unfold startsWith in *; cbn [strip_prefix]; now rewrite Ascii.eqb_refl.
Qed.

Lemma suffix_comparable (a b x p1 p2 : text) :
  x = p1 ++ a -> x = p2 ++ b -> endsWith a b = true \/ endsWith b a = true.
Proof.
  intros Ha Hb. unfold endsWith.
  apply (prefix_comparable (rev a) (rev b) (rev x) (rev p1) (rev p2));
    subst x; [|rewrite Hb]; apply rev_app_distr.
Qed.

Lemma forallb_false {A} (f : A -> bool) l :
  forallb f l = false -> exists x, In x l /\ f x = false.
Proof.
  induction l as [|a l IH]; [discriminate|]. cbn [forallb].
  destruct (f a) eqn:E; cbn [andb].
  - intros H. destruct (IH H) as (x & Hx & Hf). exists x. split; [now right|exact Hf].
  - intros _. exists a. split; [now left|exact E].
Qed.

(** When every non-empty member of [E] ends in a marker of [M] and
    every marker of [M] is a member of [E], [cut E] leaves a text as it
    is exactly when the text ends in none of the markers. *)
Lemma cut_fixed_markers E M s :
  forallb (fun u => match u with
                    | [] => true
                    | _ :: _ => existsb (fun m => endsWith (canon m) u) M
                    end) E = true ->
  forallb (fun m => truthy m && existsb (text_eqb (canon m)) E) M = true ->
  (cut E s = s <-> ends_in_none M s = true).
Proof.
  intros HE HM. rewrite cut_fixed. unfold ends_in_none. rewrite forallb_forall.
  rewrite forallb_forall in HE, HM. split.
  - intros H m Hm. apply negb_true_iff.
    destruct (endsWith_ci m s) eqn:W; [|reflexivity].
    apply endsWith_ci_spec in W as (pre & t & Hs & Ht).
    specialize (HM m Hm). apply andb_true_iff in HM as [Hne Hin].
    rewrite <- (H pre t Hs).
    + now rewrite Ht.
    + intros ->. destruct m; discriminate.
  - intros H pre t Hs Ht.
    destruct (existsb (text_eqb (canon t)) E) eqn:X; [exfalso|reflexivity].
    apply mem_In in X. specialize (HE _ X).
    destruct (canon t) as [|c u] eqn:Ct; [destruct t; [congruence|discriminate]|].
    apply existsb_exists in HE as (m & Hm & Hend).
    specialize (H m Hm). apply negb_true_iff in H.
    assert (W : endsWith_ci m s = true).
    { unfold endsWith_ci. rewrite Hs, canon_app, Ct. now apply endsWith_app. }
    congruence.
Qed.

Lemma level_fixed x s :
  cut (level_fronts x) s = s <-> ends_in_none (absorbed x) s = true.
Proof. destruct x; apply cut_fixed_markers; vm_compute; reflexivity. Qed.

Lemma half_in_bare :
  forallb (fun u => existsb (text_eqb u) (level_fronts Bare)) (level_fronts Half) = true.
Proof. vm_compute. reflexivity. Qed.

Lemma bare_minus_half :
  forallb (fun u => existsb (text_eqb u) (level_fronts Half)
                    || existsb (fun m => endsWith (canon m) u) locale_markers)
          (level_fronts Bare) = true.
Proof. vm_compute. reflexivity. Qed.

Lemma half_apart_from_locales :
  forallb (fun u => match u with
                    | [] => true
                    | _ :: _ =>
                        forallb (fun m => negb (endsWith u (canon m))
                                          && negb (endsWith (canon m) u))
                                locale_markers
                    end) (level_fronts Half) = true.
Proof. vm_compute. reflexivity. Qed.

Lemma half_bare s :
  cut (level_fronts Half) s = cut (level_fronts Bare) s <->
  ends_in_none locale_markers s = true.
Proof.
  split.
  - intros Heq. destruct (ends_in_none locale_markers s) eqn:N; [reflexivity|exfalso].
    apply forallb_false in N as (m & Hm & W). apply negb_false_iff in W.
    assert (F : cut (level_fronts Half) s = s).
    { apply cut_fixed. intros pre t Hs Ht.
      destruct (existsb (text_eqb (canon t)) (level_fronts Half)) eqn:X;
        [exfalso|reflexivity].
      apply mem_In in X. pose proof half_apart_from_locales as C.
      rewrite forallb_forall in C. specialize (C _ X).
      destruct (canon t) as [|c u] eqn:Ct; [destruct t; [congruence|discriminate]|].
      rewrite forallb_forall in C. specialize (C m Hm).
      apply andb_true_iff in C as [C1 C2]. apply negb_true_iff in C1, C2.
      apply endsWith_ci_spec in W as (p' & t' & Hs' & Ht').
      destruct (suffix_comparable (c :: u) (canon m) (canon s) (canon pre) (canon p'))
        as [D|D]; try congruence.
      - now rewrite Hs, canon_app, Ct.
      - now rewrite Hs', canon_app, Ht'. }
    rewrite F in Heq. symmetry in Heq. apply (level_fixed Bare) in Heq.
    unfold ends_in_none in Heq. rewrite forallb_forall in Heq.
    assert (Hin : In m (absorbed Bare)) by (apply in_or_app; now right).
    specialize (Heq m Hin). rewrite W in Heq. discriminate.
  - intros N. unfold ends_in_none in N. rewrite forallb_forall in N.
    apply cut_suffix_ext. intros pre t Hs.
    apply Bool.eq_iff_eq_true. rewrite !mem_In. split; intros X.
    + pose proof half_in_bare as C. rewrite forallb_forall in C.
      apply mem_In. exact (C _ X).
    + pose proof bare_minus_half as C. rewrite forallb_forall in C.
      specialize (C _ X). apply orb_true_iff in C as [C|C]; [now apply mem_In|].
      exfalso. apply existsb_exists in C as (m & Hm & Hend).
      specialize (N m Hm). apply negb_true_iff in N.
      assert (W : endsWith_ci m s = true).
      { unfold endsWith_ci. rewrite Hs, canon_app. now apply endsWith_app. }
      congruence.
Qed.

Lemma levels_agree a b s :
  cut (level_fronts a) s = cut (level_fronts b) s <->
  ends_in_none (between a b) s = true.
Proof.
  assert (S0 : cut (level_fronts Shielded) s = s)
    by (apply (level_fixed Shielded); reflexivity).
  destruct a, b; cbn [between];
    try (split; reflexivity);
    rewrite ?S0.
  - rewrite <- (level_fixed Half). split; intros H; now symmetry.
  - rewrite <- (level_fixed Bare). split; intros H; now symmetry.
  - apply (level_fixed Half).
  - apply half_bare.
  - apply (level_fixed Bare).
  - rewrite <- half_bare. split; intros H; now symmetry.
Qed.

Lemma same_members_spec L1 L2 :
  same_members L1 L2 = true ->
  forall u, existsb (text_eqb u) L1 = existsb (text_eqb u) L2.
Proof.
  unfold same_members. rewrite andb_true_iff, !forallb_forall. intros [H1 H2] u.
  apply Bool.eq_iff_eq_true. rewrite !mem_In. split; intros H.
  - apply mem_In. now apply H1.
  - apply mem_In. now apply H2.
Qed.

Lemma variant_level i l e :
  is_index_part i = true -> is_locale_part l = true -> is_extension e = true ->
  is_form (canon (slashes (i ++ l ++ e))) = true /\
  same_members (fronts (canon (slashes (i ++ l ++ e))))
               (level_fronts (exposure_of i l)) = true.
Proof.
  unfold is_index_part, is_locale_part, is_extension, locale_parts.
  rewrite orb_true_iff, !text_eqb_eq, mem_In. cbn [In].
  intros Hi Hl He. rewrite !slashes_app, !canon_app, He.
  destruct Hi as [Hi|Hi], Hl as [Hl|[Hl|[Hl|[]]]];
    try rewrite Hi; try rewrite <- Hl;
    destruct i as [|ci i]; try (vm_compute in Hi; discriminate Hi);
    destruct l as [|cl l]; try (vm_compute in Hl; discriminate Hl);
    cbn [exposure_of]; split; vm_compute; reflexivity.
Qed.

(** The identifier of a source path, by what its suffix leaves open. *)
Lemma normalizeId_level stem i l e :
  is_index_part i = true -> is_locale_part l = true -> is_extension e = true ->
  normalizeId (stem ++ i ++ l ++ e)
  = cut (level_fronts (exposure_of i l)) (slashes stem).
Proof.
  intros Hi Hl He. destruct (variant_level i l e Hi Hl He) as [F M].
  unfold normalizeId. cbv zeta. rewrite slashes_app, (replace_cut _ F).
  apply cut_suffix_ext. intros pre t _. now apply same_members_spec.
Qed.

(** C5 (amended). Two source paths on one stem, each with an optional
    index segment (after a slash or a backslash), an optional locale
    ([.zh-cn] or [.en-us]) and the extension, in any letter case, have
    the same identifier exactly when the stem, with slashes for
    backslashes, ends in none of the markers between their suffixes:
    no condition when both have an index segment, or neither has one and
    both or neither carry a locale; no index segment and no tab marker
    at the end of the stem when one has an index segment and the other
    only a locale; no locale at the end when neither has an index
    segment and one only carries a locale; no marker at all when one has
    an index segment and the other neither part. Deduplication keeps one
    entry for the two in that case, and two otherwise. *)
Theorem dedup_exact stem i1 l1 e1 i2 l2 e2 :
  is_index_part i1 = true -> is_locale_part l1 = true -> is_extension e1 = true ->
  is_index_part i2 = true -> is_locale_part l2 = true -> is_extension e2 = true ->
  (normalizeId (stem ++ i1 ++ l1 ++ e1) = normalizeId (stem ++ i2 ++ l2 ++ e2) <->
   agree stem i1 l1 i2 l2 = true) /\
  length (uniq (map normalizeId [stem ++ i1 ++ l1 ++ e1; stem ++ i2 ++ l2 ++ e2]))
  = if agree stem i1 l1 i2 l2 then 1 else 2.
Proof.
  intros Hi1 Hl1 He1 Hi2 Hl2 He2.
  rewrite (normalizeId_level stem i1 l1 e1 Hi1 Hl1 He1).
  assert (Iff := levels_agree (exposure_of i1 l1) (exposure_of i2 l2) (slashes stem)).
  fold (agree stem i1 l1 i2 l2) in Iff.
  cbn [map]. rewrite !(normalizeId_level stem i2 l2 e2 Hi2 Hl2 He2).
  rewrite !(normalizeId_level stem i1 l1 e1 Hi1 Hl1 He1).
  split; [exact Iff|].
  unfold uniq. cbn [fold_left existsb app orb].
  destruct (agree stem i1 l1 i2 l2).
  - rewrite (proj2 Iff eq_refl), text_eqb_refl. reflexivity.
  - destruct (text_eqb _ _) eqn:E; [|reflexivity].
    apply text_eqb_eq in E. symmetry in E. apply Iff in E. discriminate.
Qed.

Lemma dedup_exact_witness :
  is_locale_part (txt ".zh-cn") = true /\ is_locale_part (txt ".EN-US") = true /\
  agree (txt "components/button/index.$tab-design") [] (txt ".zh-cn") [] (txt ".EN-US")
  = true /\
  normalizeId (txt "components/button/index.$tab-design" ++ [] ++ txt ".zh-cn" ++ txt ".md")
  = normalizeId (txt "components/button/index.$tab-design" ++ [] ++ txt ".EN-US" ++ txt ".md").
Proof.
  split; [reflexivity|]. split; [reflexivity|]. split; [reflexivity|].
  apply (proj2 (proj1 (dedup_exact (txt "components/button/index.$tab-design")
                         [] (txt ".zh-cn") (txt ".md") [] (txt ".EN-US") (txt ".md")
                         eq_refl eq_refl eq_refl eq_refl eq_refl eq_refl))).
  reflexivity.
Defined.

End InventoryFacts.

(* ===================================================================== *)
(** ** Properties of render-and-extract and of the scenarios *)
(* ===================================================================== *)

Module RenderFacts.
Import Text Effects Render Samples TextFacts.
Local Open Scope eff_scope.

Lemma status_or_zero_Some s : status_or_zero (Some s) = s.
Proof.
  unfold status_or_zero. destruct (Z.eqb_spec s 0); congruence.
Qed.

Section Pipeline.

Variable Doc : Type.
Variable load : text -> Doc.
Variable title_text : Doc -> text.
Variable h1_text : Doc -> text.
Variable markdown_tables : Doc -> nat.

Lemma render_resolved w path port :
  portPromise w = Returned port ->
  render Doc load w path
  = (AwaitPort :: calls (try_catch (primary Doc load w (url_of port path))
                                   (fallback Doc load w (url_of port path))),
     result (try_catch (primary Doc load w (url_of port path))
                       (fallback Doc load w (url_of port path)))).
Proof.
  intros Hp. unfold render, call, bind. rewrite Hp.
  destruct (try_catch _ _) as [log r]. reflexivity.
Qed.

(** C1. When the browser strategy throws and the plain fetch of the same
    URL answers, [render] returns the status of the fetch and the
    document parsed from its body; the same result comes out of a call
    in which the browser strategy succeeds. *)
Theorem render_fallback_transparent w path port e resp html :
  portPromise w = Returned port ->
  result (primary Doc load w (url_of port path)) = Thrown e ->
  fetch w (url_of port path) = Returned resp ->
  resp_text resp = Returned html ->
  result (render Doc load w path) = Returned (resp_status resp, load html) /\
  exists w',
    result (primary Doc load w' (url_of port path))
      = Returned (resp_status resp, load html) /\
    result (render Doc load w' path) = result (render Doc load w path).
Proof.
  intros Hp He Hf Ht.
  assert (R : result (render Doc load w path)
              = Returned (resp_status resp, load html)).
  { rewrite (render_resolved _ _ _ Hp). unfold result at 1. cbn [snd].
    destruct (primary Doc load w (url_of port path)) as [log r].
    unfold result in He. cbn [snd] in He. subst r.
    unfold try_catch, fallback, call, bind, ret, result. rewrite Hf, Ht.
    reflexivity. }
  split; [exact R|].
  exists {| portPromise := Returned port;
            page_goto := fun _ => Returned (Some (resp_status resp));
            page_waitForSelector := fun _ => Returned tt;
            page_content := Returned html;
            fetch := fetch w;
            toMatchSnapshot := toMatchSnapshot w |}.
  assert (P : forall url,
    primary Doc load
      {| portPromise := Returned port;
         page_goto := fun _ => Returned (Some (resp_status resp));
         page_waitForSelector := fun _ => Returned tt;
         page_content := Returned html;
         fetch := fetch w;
         toMatchSnapshot := toMatchSnapshot w |} url
    = ([Goto url 10000%N; Settle 3000%N; WaitForSelector table_selector 2000%N;
        Content],
       Returned (resp_status resp, load html))).
  { intros url. unfold primary, try_catch, call, bind, ret. cbn -[status_or_zero].
    now rewrite status_or_zero_Some. }
  split.
  - now rewrite P.
  - rewrite R. erewrite render_resolved by reflexivity. now rewrite P.
Qed.

(** C2. When the navigation succeeds and the wait for the table selector
    fails, [render] goes on to capture the page; if the capture succeeds
    it makes no fetch and returns the status of the navigation (0 when
    the navigation has no response) with the parsed page; and in every
    case the call is the one that a successful wait gives, up to the
    outcome of the wait itself. *)
Theorem selector_wait_failure_tolerated w path port response e :
  portPromise w = Returned port ->
  page_goto w (url_of port path) = Returned response ->
  page_waitForSelector w table_selector = Thrown e ->
  (forall html, page_content w = Returned html ->
     render Doc load w path
     = ([AwaitPort; Goto (url_of port path) 10000%N; Settle 3000%N;
         WaitForSelector table_selector 2000%N; Content],
        Returned (match response with Some status => status | None => 0%Z end,
                  load html))) /\
  render Doc load w path
  = render Doc load (with_waitForSelector w (fun _ => Returned tt)) path.
Proof.
  intros Hp Hg Hw. split.
  - intros html Hc. rewrite (render_resolved _ _ _ Hp).
    unfold primary, try_catch, call, bind, ret, calls, result.
    rewrite Hg, Hw, Hc. cbn -[status_or_zero]. repeat f_equal.
    destruct response as [s|]; [apply status_or_zero_Some|reflexivity].
  - rewrite (render_resolved _ _ _ Hp).
    rewrite (render_resolved (with_waitForSelector w _) path port) by exact Hp.
    unfold primary, fallback, try_catch, call, bind, ret, calls, result.
    cbn [page_goto page_waitForSelector page_content fetch with_waitForSelector].
    rewrite Hg, Hw. reflexivity.
Qed.

Lemma heading_page_passes w path phrase st doc :
  result (render Doc load w path) = Returned (st, doc) ->
  (passes (heading_page Doc load h1_text path phrase w) = true <->
   st = 200%Z /\ (h1_text doc = [] \/ includes phrase (h1_text doc) = true)).
Proof.
  clear title_text markdown_tables.
  intros Hr. unfold heading_page, passes, result in Hr |- *.
  destruct (render Doc load w path) as [log r]. cbn [snd] in Hr. subst r.
  unfold bind, expect_toBe, expect_toMatch, ret, throw.
  destruct (Z.eqb_spec st 200) as [->|Hst]; cbn [snd].
  - destruct (h1_text doc) as [|c h] eqn:Eh; cbn [truthy snd].
    + intuition.
    + destruct (includes phrase (c :: h)); cbn [snd];
        intuition (try discriminate).
  - intuition (try discriminate).
Qed.

Lemma basic_page_passes w path st doc :
  result (render Doc load w path) = Returned (st, doc) ->
  (passes (basic_page Doc load title_text path w) = true <-> st = 200%Z).
Proof.
  clear h1_text markdown_tables.
  intros Hr. unfold basic_page, passes, result in Hr |- *.
  destruct (render Doc load w path) as [log r]. cbn [snd] in Hr. subst r.
  unfold bind, expect_toBe, expect_toMatch, ret, throw.
  destruct (Z.eqb_spec st 200) as [->|Hst]; cbn [snd].
  - destruct (truthy (title_text doc)); cbn [andb snd]; [|intuition].
    destruct (includes (txt "Ant Design") (title_text doc)); cbn [snd]; intuition.
  - intuition (try discriminate).
Qed.

(** C4 (amended). Given what [render] returned for its path, each of the
    four overview and resources scenarios passes exactly when the status
    is 200 and the heading is empty or contains the phrase of its
    locale; each of the two home-page scenarios passes exactly when the
    status is 200, whatever the title. *)
Theorem fixed_scenarios_text_check w st doc :
  (result (render Doc load w (txt "/components/overview")) = Returned (st, doc) ->
   (passes (overview_en Doc load h1_text w) = true <->
    st = 200%Z /\
    (h1_text doc = [] \/ includes (txt "Overview") (h1_text doc) = true))) /\
  (result (render Doc load w (txt "/components/overview-cn")) = Returned (st, doc) ->
   (passes (overview_zh Doc load h1_text w) = true <->
    st = 200%Z /\
    (h1_text doc = [] \/ includes (txt "组件总览") (h1_text doc) = true))) /\
  (result (render Doc load w (txt "/docs/resources")) = Returned (st, doc) ->
   (passes (resource_en Doc load h1_text w) = true <->
    st = 200%Z /\
    (h1_text doc = [] \/ includes (txt "Resources") (h1_text doc) = true))) /\
  (result (render Doc load w (txt "/docs/resources-cn")) = Returned (st, doc) ->
   (passes (resource_zh Doc load h1_text w) = true <->
    st = 200%Z /\
    (h1_text doc = [] \/ includes (txt "资源") (h1_text doc) = true))) /\
  (result (render Doc load w (txt "/")) = Returned (st, doc) ->
   (passes (basic_pages_en Doc load title_text w) = true <-> st = 200%Z)) /\
  (result (render Doc load w (txt "/index-cn")) = Returned (st, doc) ->
   (passes (basic_pages_zh Doc load title_text w) = true <-> st = 200%Z)).
Proof.
  repeat apply conj; intros Hr;
    first [ exact (heading_page_passes _ _ _ _ _ Hr)
          | exact (basic_page_passes _ _ _ _ Hr) ].
Qed.

Lemma it_zh_page component registry :
  it (txt "Component " ++ component ++ txt " zh Page")
     (fun w =>
        expectComponent Doc load h1_text markdown_tables w (component ++ txt "-cn") ;;;
        expect_toBeTruthy component)
     15000%N registry
  = registry ++ [zh_page Doc load h1_text markdown_tables component].
Proof. reflexivity. Qed.

Lemma it_en_page component registry :
  it (txt "Component " ++ component ++ txt " en Page")
     (fun w =>
        expectComponent Doc load h1_text markdown_tables w component ;;;
        expect_toBeTruthy component)
     15000%N registry
  = registry ++ [en_page Doc load h1_text markdown_tables component].
Proof. reflexivity. Qed.

Lemma component_scenarios_flat components : forall registry,
  component_scenarios Doc load h1_text markdown_tables components registry
  = registry ++ flat_map (scenarios_of Doc load h1_text markdown_tables) components.
Proof.
  unfold component_scenarios.
  induction components as [|c cs IH]; intros registry; cbn [fold_left flat_map].
  - now rewrite app_nil_r.
  - rewrite IH.
    assert (Hs : scenarios_of Doc load h1_text markdown_tables c
                 = if length (split slash c) <? 3
                   then [zh_page Doc load h1_text markdown_tables c;
                         en_page Doc load h1_text markdown_tables c]
                   else []) by reflexivity.
    rewrite Hs. destruct (length (split slash c) <? 3).
    + rewrite it_zh_page, it_en_page, <- !app_assoc. reflexivity.
    + reflexivity.
Qed.

(** C7. The registry after the loop is the fixed scenarios followed, for
    each inventory entry in order, by its zh page and its en page when
    its depth is below 3, and by nothing otherwise: a test comes from the
    loop exactly when it is one of the two pages of an entry of depth
    below 3, and there are two tests for each such entry. *)
Theorem component_scenarios_exact components :
  site_test Doc load title_text h1_text markdown_tables components
  = fixed_scenarios Doc load title_text h1_text []
    ++ flat_map (scenarios_of Doc load h1_text markdown_tables) components /\
  (forall t,
     In t (component_scenarios Doc load h1_text markdown_tables components []) <->
     exists c, In c components /\ length (split slash c) < 3 /\
               (t = zh_page Doc load h1_text markdown_tables c \/
                t = en_page Doc load h1_text markdown_tables c)) /\
  (forall c, 3 <= length (split slash c) ->
     scenarios_of Doc load h1_text markdown_tables c = []) /\
  length (component_scenarios Doc load h1_text markdown_tables components [])
  = 2 * length (List.filter (fun c => length (split slash c) <? 3) components).
Proof.
  split; [apply component_scenarios_flat|].
  rewrite component_scenarios_flat. cbn [app]. repeat split.
  - intros Ht. apply in_flat_map in Ht as (c & Hc & Ht). exists c.
    unfold scenarios_of in Ht.
    destruct (Nat.ltb_spec (length (split slash c)) 3) as [Hd|Hd]; [|destruct Ht].
    cbn [In] in Ht. intuition.
  - intros (c & Hc & Hd & Ht). apply in_flat_map. exists c. split; [exact Hc|].
    unfold scenarios_of. apply Nat.ltb_lt in Hd. rewrite Hd. cbn [In].
    destruct Ht as [->| ->]; auto.
  - intros c Hd. unfold scenarios_of.
    destruct (Nat.ltb_spec (length (split slash c)) 3); [lia|reflexivity].
  - induction components as [|c cs IH]; [reflexivity|].
    cbn [flat_map List.filter]. rewrite length_app, IH. unfold scenarios_of.
    destruct (length (split slash c) <? 3); cbn [length]; lia.
Qed.

End Pipeline.

Lemma component_scenarios_exact_witness :
  map title
      (component_scenarios page sample_load page_h1 page_tables
         [txt "components/button"; txt "components/button/design"] [])
  = [txt "Component components/button zh Page";
     txt "Component components/button en Page"] /\
  length (component_scenarios page sample_load page_h1 page_tables
            [txt "components/button"; txt "components/button/design"] [])
  = 2 * length (List.filter (fun c => length (split slash c) <? 3)
                  [txt "components/button"; txt "components/button/design"]).
Proof.
  split; [reflexivity|].
  apply (component_scenarios_exact page sample_load page_title page_h1 page_tables
           [txt "components/button"; txt "components/button/design"]).
Defined.

Lemma render_fallback_transparent_witness :
  portPromise (fetch_world 200 (txt "Button|Button")) = Returned 3000%N /\
  result (render page sample_load (fetch_world 200 (txt "Button|Button"))
                 (txt "/components/button/"))
  = Returned (200%Z, sample_load (txt "Button|Button")).
Proof.
  split; [reflexivity|].
  apply (render_fallback_transparent page sample_load
           (fetch_world 200 (txt "Button|Button")) (txt "/components/button/")
           3000%N "Navigation timeout of 10000 ms exceeded"
           {| resp_status := 200; resp_text := Returned (txt "Button|Button") |}
           (txt "Button|Button"));
    reflexivity.
Defined.

Lemma selector_wait_failure_tolerated_witness :
  page_waitForSelector (no_table_world (txt "Ant Design|Resources")) table_selector
  = Thrown "waiting for selector failed" /\
  render page sample_load (no_table_world (txt "Ant Design|Resources"))
         (txt "/docs/resources")
  = ([AwaitPort; Goto (url_of 3000%N (txt "/docs/resources")) 10000%N;
      Settle 3000%N; WaitForSelector table_selector 2000%N; Content],
     Returned (200%Z, sample_load (txt "Ant Design|Resources"))).
Proof.
  split; [reflexivity|].
  apply (proj1 (selector_wait_failure_tolerated page sample_load
                  (no_table_world (txt "Ant Design|Resources"))
                  (txt "/docs/resources") 3000%N (Some 200%Z)
                  "waiting for selector failed"
                  eq_refl eq_refl eq_refl));
    reflexivity.
Defined.

Lemma fixed_scenarios_text_check_witness :
  result (render page sample_load (browser_world (txt "Ant Design|Overview"))
                 (txt "/components/overview"))
  = Returned (200%Z, sample_load (txt "Ant Design|Overview")) /\
  (passes (overview_en page sample_load page_h1
             (browser_world (txt "Ant Design|Overview"))) = true <->
   200%Z = 200%Z /\
   (page_h1 (sample_load (txt "Ant Design|Overview")) = [] \/
    includes (txt "Overview") (page_h1 (sample_load (txt "Ant Design|Overview")))
    = true)).
Proof.
  split; [reflexivity|].
  apply (proj1 (fixed_scenarios_text_check page sample_load page_title page_h1
                  (browser_world (txt "Ant Design|Overview")) 200%Z
                  (sample_load (txt "Ant Design|Overview")))).
  reflexivity.
Defined.

(** C4 fails as stated on the home page: with status 200 and the
    non-empty title [Home], which does not contain the phrase, the
    scenario passes; the title is matched only when it already contains
    the phrase. The overview scenario, by contrast, fails on the heading
    [Home]. *)
Lemma home_title_not_asserted :
  let w := browser_world (txt "Home|Home") in
  result (render page sample_load w (txt "/"))
    = Returned (200%Z, sample_load (txt "Home|Home")) /\
  truthy (page_title (sample_load (txt "Home|Home"))) = true /\
  includes (txt "Ant Design") (page_title (sample_load (txt "Home|Home"))) = false /\
  passes (basic_pages_en page sample_load page_title w) = true /\
  passes (overview_en page sample_load page_h1 w) = false.
Proof. cbv zeta. repeat split; vm_compute; reflexivity. Qed.

Lemma remove_all_once pat s :
  pat <> [] -> includes pat (replace pat [] s) = false ->
  remove_all (length s) pat s = replace pat [] s.
Proof.
  intros Hp Hr. destruct s as [|c s].
  - cbn [length remove_all]. rewrite replace_absent; [reflexivity|].
    now apply includes_nil.
  - cbn [length remove_all]. destruct (includes pat (c :: s)) eqn:E.
    + destruct (length s); cbn [remove_all]; [reflexivity|now rewrite Hr].
    + now rewrite replace_absent.
Qed.

(** Where the lower-cased last segment holds the locale marker at most
    once and, that marker apart, at most one hyphen, the code and the
    specification's derivation agree. *)
Lemma handleComponentName_agrees name :
  let segment := toLowerCase (List.last (split slash name) []) in
  let unmarked := replace (txt "-cn") [] segment in
  includes (txt "-cn") unmarked = false ->
  includes (txt "-") (replace (txt "-") [] unmarked) = false ->
  handleComponentName name = componentName_spec name.
Proof.
  cbv zeta. intros Hcn Hh. unfold handleComponentName, componentName_spec.
  cbv zeta. rewrite nth_last.
  rewrite (remove_all_once (txt "-cn")) by (discriminate || exact Hcn).
  rewrite (remove_all_once (txt "-")) by (discriminate || exact Hh).
  reflexivity.
Qed.

(** C3. The two names of the specification both give [button], but on
    [components/date-range-picker] the code returns [daterange-picker]:
    only the first hyphen is removed, where the specification's
    derivation gives [daterangepicker]. *)
Theorem handleComponentName_first_hyphen_only :
  handleComponentName (txt "components/button-cn") = txt "button" /\
  handleComponentName (txt "components/Button") = txt "button" /\
  handleComponentName (txt "components/date-range-picker") = txt "daterange-picker" /\
  componentName_spec (txt "components/date-range-picker") = txt "daterangepicker" /\
  handleComponentName (txt "components/date-range-picker")
    <> componentName_spec (txt "components/date-range-picker").
Proof. repeat split; try (vm_compute; reflexivity). vm_compute. discriminate. Qed.

End RenderFacts.

(* ===================================================================== *)
(** ** Properties of the teardown *)
(* ===================================================================== *)

Module TeardownFacts.
Import Effects Teardown.

(** C8 (amended). When closing the browser does not fail, [afterAll]
    calls [close] on the browser (if it was launched) and then on the
    server (if it was created), and ends as the server's [close] does: a
    failing server [close] comes after the browser was closed. When
    closing the browser fails, [afterAll] ends with that error and the
    server's [close] is not called. *)
Theorem afterAll_closes_both s :
  ((forall e, browser s <> Some (Thrown e)) ->
   calls (afterAll s)
   = match browser s with Some _ => [BrowserClose] | None => [] end
     ++ match server s with Some _ => [ServerClose] | None => [] end /\
   result (afterAll s)
   = match server s with Some r => r | None => Returned tt end) /\
  (forall e, browser s = Some (Thrown e) ->
   calls (afterAll s) = [BrowserClose] /\ result (afterAll s) = Thrown e).
Proof.
  unfold afterAll, calls, result, bind, call, ret. split.
  - intros Hb.
    destruct (browser s) as [[[]|e]|]; [|now destruct (Hb e)|];
      destruct (server s) as [[[]|e']|]; split; reflexivity.
  - intros e ->. split; reflexivity.
Qed.

Lemma afterAll_closes_both_witness :
  calls (afterAll {| browser := Some (Returned tt);
                     server := Some (Thrown "server is not running") |})
  = [BrowserClose; ServerClose] /\
  result (afterAll {| browser := Some (Returned tt);
                      server := Some (Thrown "server is not running") |})
  = Thrown "server is not running".
Proof.
  apply (proj1 (afterAll_closes_both
                  {| browser := Some (Returned tt);
                     server := Some (Thrown "server is not running") |})).
  intros e. discriminate.
Defined.

(** C8 fails as stated: when closing the browser fails, [afterAll] ends
    with that error and never calls [close] on the server. *)
Lemma server_not_closed_when_browser_close_fails :
  let s := {| browser := Some (Thrown "Protocol error: target closed");
              server := Some (Returned tt) |} in
  calls (afterAll s) = [BrowserClose] /\
  ~ In ServerClose (calls (afterAll s)) /\
  result (afterAll s) = Thrown "Protocol error: target closed".
Proof.
  cbv zeta. repeat split. cbn. intros [H|[]]. discriminate.
Qed.

End TeardownFacts.

(* ===================================================================== *)
(** ** Properties of the polyfills *)
(* ===================================================================== *)

Module PolyfillFacts.
Import Polyfill.

Lemma fold_sizes bits : forall acc,
  fold_left
    (fun size bit =>
       match bit with
       | StringBit s => (size + N.of_nat (length (encode s)))%N
       | BufferBit b => (size + byteLength b)%N
       end)
    bits acc
  = (acc + sum_of_sizes bits)%N.
Proof.
  unfold sum_of_sizes.
  induction bits as [|b bits IH]; intros acc; cbn [fold_left map fold_right].
  - now rewrite N.add_0_r.
  - rewrite IH. destruct b; cbn [bit_size]; lia.
Qed.

(** [h], [e acute], a CJK character and a surrogate pair take 1, 2, 3
    and 4 bytes; a lone surrogate is encoded as U+FFFD. *)
Example encode_lengths :
  map (fun s => length (encode s))
      [[0x68%N]; [0xE9%N]; [0x4E2D%N]; [0xD83D%N; 0xDE00%N]; [0xD83D%N]]
  = [1; 2; 3; 4; 3].
Proof. reflexivity. Qed.

(** A file made of [h], [e acute] and a buffer of three bytes. *)
Example MockFile_sample :
  let f := new_MockFile 1700000000000
             [StringBit [0x68%N]; StringBit [0xE9%N];
              BufferBit [Byte.x01; Byte.x02; Byte.x03]]
             [0x61%N] {| opt_type := None; opt_lastModified := None |} in
  size f = 6%N /\ type f = [] /\ lastModified f = 1700000000000%Z.
Proof. cbv zeta. repeat split. Qed.

(** C10. For string bits, [text()] is their concatenation in order; and
    the [size] the constructor sets is the sum, over the bits, of the
    length of the UTF-8 encoding of a string bit and of the [byteLength]
    of any other bit. *)
Theorem MockFile_text_and_size
    (buffer_toString : list Byte.byte -> jsstring) (now : Z)
    (strings : list jsstring) (bits : list bit) (filename : jsstring)
    (options : file_options) :
  text buffer_toString (new_MockFile now (map StringBit strings) filename options)
  = concat strings /\
  size (new_MockFile now bits filename options) = sum_of_sizes bits.
Proof.
  split.
  - unfold text. cbn [Polyfill.bits new_MockFile]. rewrite map_map.
    cbn [bit_toString]. now rewrite map_id.
  - cbn [size new_MockFile]. now rewrite fold_sizes.
Qed.

Section FormData.

Variable V : Type.

Lemma append_other (name other : string) (value : V) (data : gmap string (list V)) :
  name <> other -> append V name value data !! other = data !! other.
Proof.
  intros Hne. unfold append.
  destruct (data !! name) as [values|] eqn:E.
  - rewrite E. now rewrite lookup_insert_ne.
  - rewrite lookup_insert_eq. now rewrite !lookup_insert_ne.
Qed.

Lemma apply_op_keeps_missing (other : string) (o : op V)
    (data : gmap string (list V)) :
  writes V other o = false -> data !! other = None ->
  apply_op V data o !! other = None.
Proof.
  intros Hw Hd. destruct o as [n v|n v|n]; cbn [apply_op writes] in *.
  - apply String.eqb_neq in Hw. now rewrite append_other.
  - apply String.eqb_neq in Hw. unfold set. now rewrite lookup_insert_ne.
  - unfold delete. destruct (decide (n = other)) as [->|Hne].
    + apply lookup_delete_eq.
    + now rewrite lookup_delete_ne.
Qed.

Lemma run_keeps_missing (other : string) (ops : list (op V)) :
  forall data : gmap string (list V),
  existsb (writes V other) ops = false -> data !! other = None ->
  fold_left (apply_op V) ops data !! other = None.
Proof.
  induction ops as [|o ops IH]; intros data Hw Hd; cbn [fold_left].
  - exact Hd.
  - cbn [existsb] in Hw. apply orb_false_iff in Hw as [Ho Hw].
    apply IH; [exact Hw|]. now apply apply_op_keeps_missing.
Qed.

(** C9. After [set(name, value)], [getAll(name)] is [[value]], whatever
    the form held for that name; and on a form built by any calls none
    of which appends or sets a name, [getAll] of that name is the empty
    list and [get] of it is [null]. *)
Theorem MockFormData_set_getAll_get
    (data : gmap string (list V)) (name : string) (value : V)
    (ops : list (op V)) (other : string) :
  getAll V name (set V name value data) = [value] /\
  (existsb (writes V other) ops = false ->
   getAll V other (run V ops) = [] /\ get V other (run V ops) = Null V).
Proof.
  split.
  - unfold getAll, set. now rewrite lookup_insert_eq.
  - intros Hw. unfold getAll, get, run.
    rewrite (run_keeps_missing other ops (new_MockFormData V) Hw); [auto|].
    apply lookup_empty.
Qed.

End FormData.

Lemma MockFormData_set_getAll_get_witness :
  existsb (writes nat "avatar")
          [Append nat "tag" 1; Append nat "tag" 2; Set_ nat "name" 3;
           Delete nat "avatar"] = false /\
  getAll nat "tag"
    (set nat "tag" 7
       (run nat [Append nat "tag" 1; Append nat "tag" 2; Set_ nat "name" 3;
                 Delete nat "avatar"])) = [7] /\
  getAll nat "avatar"
    (run nat [Append nat "tag" 1; Append nat "tag" 2; Set_ nat "name" 3;
              Delete nat "avatar"]) = [] /\
  get nat "avatar"
    (run nat [Append nat "tag" 1; Append nat "tag" 2; Set_ nat "name" 3;
              Delete nat "avatar"]) = Null nat.
Proof.
  split; [reflexivity|].
  destruct (MockFormData_set_getAll_get nat
              (run nat [Append nat "tag" 1; Append nat "tag" 2; Set_ nat "name" 3;
                        Delete nat "avatar"])
              "tag" 7
              [Append nat "tag" 1; Append nat "tag" 2; Set_ nat "name" 3;
               Delete nat "avatar"]
              "avatar") as [Hset Hmissing].
  split; [exact Hset|]. apply Hmissing. reflexivity.
Defined.

End PolyfillFacts.

(* ===================================================================== *)
(** ** Further properties of the page inventory *)
(* ===================================================================== *)

Module InventoryLaws.
Import Text Regex Inventory TextFacts RegexFacts InventoryFacts.

(** X1. The suffix pattern matches, at the head of a text, exactly the
    texts that are one of the eighteen suffix forms up to letter case
    (an optional index segment after a slash or a backslash, an optional
    [.$tab-design], an
    optional [.zh-cn] or [.en-us], then [.md]), and a match always runs
    to the end of the text. *)
Theorem suffix_re_language s :
  match_here true suffix_re s = if is_form (canon s) then Some [] else None.
Proof.
  destruct (is_form (canon s)) eqn:F.
  - now apply suffix_re_complete.
  - destruct (match_here true suffix_re s) as [rest|] eqn:E; [|reflexivity].
    apply suffix_re_sound in E as [_ E]. congruence.
Qed.

Lemma slash_fix_canon c x :
  x <> slash -> x <> backslash ->
  Ascii.eqb x (upper_char (if Ascii.eqb c backslash then slash else c))
  = Ascii.eqb x (upper_char c).
Proof.
  intros Hs Hb. destruct (Ascii.eqb c backslash) eqn:E; [|reflexivity].
  apply Ascii.eqb_eq in E. subst c.
  replace (upper_char slash) with slash by reflexivity.
  replace (upper_char backslash) with backslash by reflexivity.
  apply Ascii.eqb_neq in Hs, Hb. now rewrite Hs, Hb.
Qed.

Lemma endsWith_md_slashes p :
  endsWith_ci (txt ".md") (slashes p) = endsWith_ci (txt ".md") p.
Proof.
  unfold endsWith_ci, endsWith, canon, slashes. rewrite map_map, <- !map_rev.
  unfold startsWith.
  replace (map upper_char (rev (txt ".md")))
    with ["D"%char; "M"%char; "."%char] by reflexivity.
  destruct (rev p) as [|a [|b [|c r]]]; cbn [map strip_prefix];
    rewrite ?slash_fix_canon by discriminate; try reflexivity.
  destruct (Ascii.eqb "D" (upper_char a)), (Ascii.eqb "M" (upper_char b)),
    (Ascii.eqb "." (upper_char c)); reflexivity.
Qed.

Lemma forms_long :
  forallb (fun F => 3 <=? length F) suffix_forms = true.
Proof. vm_compute. reflexivity. Qed.

Lemma no_backslash_slashes s : ~ In backslash (slashes s).
Proof.
  unfold slashes. intros H. apply in_map_iff in H as (c & E & _).
  destruct (Ascii.eqb c backslash) eqn:B.
  - discriminate.
  - apply Ascii.eqb_neq in B. congruence.
Qed.

(** X2. The identifier of a path is a prefix of the path with its
    backslashes turned into slashes and holds no backslash; it is that
    whole path exactly when the path does not end in [.md] (in any
    letter case), and otherwise it is at least three characters
    shorter. *)
Theorem normalizeId_shape p :
  (exists t, slashes p = normalizeId p ++ t) /\
  ~ In backslash (normalizeId p) /\
  (normalizeId p = slashes p <-> endsWith_ci (txt ".md") p = false) /\
  (endsWith_ci (txt ".md") p = true -> length (normalizeId p) + 3 <= length p).
Proof.
  split; [apply normalizeId_prefix|]. split; [|split].
  - destruct (normalizeId_prefix p) as (t & E). intros H.
    apply (no_backslash_slashes p). rewrite E. apply in_or_app. now left.
  - rewrite <- endsWith_md_slashes. unfold normalizeId. cbv zeta.
    apply strip_fixed_iff.
  - intros W. rewrite <- endsWith_md_slashes in W.
    unfold normalizeId. cbv zeta.
    destruct (replace_re_prefix true suffix_re (slashes p) suffix_re_anchored)
      as [[E _]|(t & E & Ht)].
    + apply strip_fixed_iff in E. congruence.
    + apply suffix_re_sound in Ht as [_ F]. unfold is_form in F.
      apply existsb_exists in F as (f & Hf & Ef). apply text_eqb_eq in Ef.
      pose proof forms_long as L. rewrite forallb_forall in L.
      specialize (L f Hf). apply Nat.leb_le in L.
      rewrite <- Ef in L. unfold canon in L. rewrite length_map in L.
      assert (Hl : length (slashes p) = length p) by (unfold slashes; apply length_map).
      rewrite <- Hl. rewrite E at 2. rewrite length_app. lia.
Qed.

Lemma normalizeId_shape_witness :
  endsWith_ci (txt ".md")
    (txt "components" ++ backslash :: txt "button" ++ backslash :: txt "index.zh-cn.md")
  = true /\
  length (normalizeId
            (txt "components" ++ backslash :: txt "button" ++ backslash
               :: txt "index.zh-cn.md")) + 3
  <= length (txt "components" ++ backslash :: txt "button" ++ backslash
               :: txt "index.zh-cn.md").
Proof.
  split; [reflexivity|].
  apply (proj2 (proj2 (proj2 (normalizeId_shape
           (txt "components" ++ backslash :: txt "button" ++ backslash
              :: txt "index.zh-cn.md"))))).
  reflexivity.
Defined.

(** Nothing can stand in front of an index suffix inside a match: the
    forms hold a separator at their head only. *)
Lemma index_forms_check :
  forallb (fun F =>
    forallb (fun V =>
      match strip_suffix V F with
      | Some (_ :: _) => false
      | _ => true
      end)
      (map (fun l => canon (index_suffix Index ++ locale_suffix l ++ txt ".md"))
           [NoLocale; ZhCn; EnUs]))
    suffix_forms = true.
Proof. vm_compute. reflexivity. Qed.

Lemma index_suffix_strips stem l :
  normalizeId (source_path stem Index l) = slashes stem.
Proof.
  unfold source_path, normalizeId. cbv zeta. rewrite slashes_app.
  rewrite replace_re_at with (rest := []).
  - now rewrite !app_nil_r.
  - intros p1 t1 Hs Hne.
    destruct (match_here true suffix_re
                (t1 ++ slashes (index_suffix Index ++ locale_suffix l ++ txt ".md")))
      as [rest|] eqn:E; [exfalso|reflexivity].
    apply suffix_re_sound in E as [_ E]. rewrite canon_app in E.
    unfold is_form in E. apply existsb_exists in E as (F & HF & EF).
    apply text_eqb_eq in EF.
    pose proof index_forms_check as C. rewrite forallb_forall in C.
    specialize (C F HF). rewrite forallb_forall in C.
    specialize (C (canon (index_suffix Index ++ locale_suffix l ++ txt ".md"))).
    assert (Hin : In (canon (index_suffix Index ++ locale_suffix l ++ txt ".md"))
                     (map (fun l => canon (index_suffix Index ++ locale_suffix l ++ txt ".md"))
                          [NoLocale; ZhCn; EnUs])).
    { apply in_map_iff. exists l. split; [reflexivity|]. destruct l; cbn; auto. }
    specialize (C Hin).
    assert (S : slashes (index_suffix Index ++ locale_suffix l ++ txt ".md")
                = index_suffix Index ++ locale_suffix l ++ txt ".md")
      by (destruct l; reflexivity).
    rewrite S in EF.
    assert (X : strip_suffix (canon (index_suffix Index ++ locale_suffix l ++ txt ".md")) F
                = Some (canon t1)) by (apply strip_suffix_Some; congruence).
    rewrite X in C. destruct t1; [congruence|discriminate].
  - apply suffix_re_complete, variant_is_form.
Qed.

(** X3. An index file always normalizes to its directory: whatever the
    stem, the path [stem/index.md], [stem/index.zh-cn.md] or
    [stem/index.en-us.md] has the stem (with slashes for backslashes) as
    its identifier, and so do the two of them together after
    deduplication. *)
Theorem normalizeId_index_file stem l1 l2 :
  normalizeId (source_path stem Index l1) = slashes stem /\
  uniq (map normalizeId [source_path stem Index l1; source_path stem Index l2])
  = [slashes stem].
Proof.
  split; [apply index_suffix_strips|].
  cbn [map]. rewrite !index_suffix_strips. apply uniq_pair.
Qed.

Lemma existsb_text_In x l : existsb (text_eqb x) l = true <-> In x l.
Proof.
  rewrite existsb_exists. split.
  - intros (y & Hy & E). apply text_eqb_eq in E. now subst.
  - intros H. exists x. split; [exact H|apply text_eqb_refl].
Qed.

Lemma NoDup_snoc (l : list text) a : List.NoDup l -> ~ In a l -> List.NoDup (l ++ [a]).
Proof.
  induction 1 as [|x l Hx Hl IH]; intros Ha; cbn [app].
  - constructor; [intros []|constructor].
  - constructor.
    + rewrite in_app_iff. cbn [In] in *. intros [H|[H|[]]]; [tauto|].
      apply Ha. now left.
    + apply IH. intros H. apply Ha. now right.
Qed.

Lemma uniq_fold l : forall seen,
  List.NoDup seen ->
  List.NoDup (fold_left
           (fun seen x => if existsb (text_eqb x) seen then seen else seen ++ [x])
           l seen) /\
  forall x,
    In x (fold_left
            (fun seen x => if existsb (text_eqb x) seen then seen else seen ++ [x])
            l seen) <-> In x seen \/ In x l.
Proof.
  induction l as [|a l IH]; intros seen Hnd; cbn [fold_left].
  - split; [exact Hnd|]. intros x. cbn [In]. tauto.
  - destruct (existsb (text_eqb a) seen) eqn:E.
    + destruct (IH seen Hnd) as [N M]. split; [exact N|].
      intros x. rewrite M. cbn [In]. apply existsb_text_In in E.
      split; [tauto|]. intros [H|[<-|H]]; tauto.
    + assert (Ha : ~ In a seen).
      { intros H. apply existsb_text_In in H. congruence. }
      assert (Hnd' : List.NoDup (seen ++ [a])).
      { now apply NoDup_snoc. }
      destruct (IH (seen ++ [a]) Hnd') as [N M]. split; [exact N|].
      intros x. rewrite M, in_app_iff. cbn [In]. tauto.
Qed.

(** X4. The inventory holds no identifier twice and none that contains
    [_util]; its entries are exactly the identifiers of the given files
    that do not contain [_util]. *)
Theorem components_exact files :
  List.NoDup (components files) /\
  forall c,
    In c (components files) <->
    (exists f, In f files /\ normalizeId f = c) /\
    includes (txt "_util") c = false.
Proof.
  unfold components, uniq.
  destruct (uniq_fold (map normalizeId files) [] (List.NoDup_nil _)) as [N M].
  split.
  - now apply List.NoDup_filter.
  - intros c. rewrite filter_In, M, in_map_iff, negb_true_iff. cbn [In].
    split.
    + intros [[[]|(f & E & Hf)] U]. split; [eauto|exact U].
    + intros [(f & Hf & E) U]. split; [right; eauto|exact U].
Qed.

End InventoryLaws.

(* ===================================================================== *)
(** ** Further properties of render-and-extract and of the scenarios *)
(* ===================================================================== *)

Module RenderLaws.
Import Text Effects Render Samples TextFacts RenderFacts.
Local Open Scope eff_scope.

Section Pipeline.

Variable Doc : Type.
Variable load : text -> Doc.
Variable title_text : Doc -> text.
Variable h1_text : Doc -> text.
Variable markdown_tables : Doc -> nat.

(** X5. [render] has no fallback of its own for the fallback: when the
    browser strategy throws, a failing fetch, or a failing read of its
    body, ends the call with that error (the browser's error is only
    logged), after one fetch and no second navigation; and a rejected
    port ends the call before any navigation or fetch. *)
Theorem render_failure_propagates w path :
  (forall port e e2,
     portPromise w = Returned port ->
     result (primary Doc load w (url_of port path)) = Thrown e ->
     fetch w (url_of port path) = Thrown e2 ->
     render Doc load w path
     = (AwaitPort :: calls (primary Doc load w (url_of port path))
          ++ [ConsoleError (url_of port path) e; Fetch (url_of port path)],
        Thrown e2)) /\
  (forall port e resp e3,
     portPromise w = Returned port ->
     result (primary Doc load w (url_of port path)) = Thrown e ->
     fetch w (url_of port path) = Returned resp ->
     resp_text resp = Thrown e3 ->
     render Doc load w path
     = (AwaitPort :: calls (primary Doc load w (url_of port path))
          ++ [ConsoleError (url_of port path) e; Fetch (url_of port path); ReadBody],
        Thrown e3)) /\
  (forall e, portPromise w = Thrown e ->
     render Doc load w path = ([AwaitPort], Thrown e)).
Proof.
  repeat apply conj.
  - intros port e e2 Hp He Hf. rewrite (render_resolved _ _ _ _ _ Hp).
    destruct (primary Doc load w (url_of port path)) as [log r].
    unfold result in He. cbn [snd] in He. subst r.
    unfold try_catch, fallback, call, bind, ret, calls, result.
    rewrite Hf. reflexivity.
  - intros port e resp e3 Hp He Hf Ht. rewrite (render_resolved _ _ _ _ _ Hp).
    destruct (primary Doc load w (url_of port path)) as [log r].
    unfold result in He. cbn [snd] in He. subst r.
    unfold try_catch, fallback, call, bind, ret, calls, result.
    rewrite Hf, Ht. reflexivity.
  - intros e Hp. unfold render, call, bind. now rewrite Hp.
Qed.

Lemma primary_no_fetch w url :
  List.filter is_fetch (calls (primary Doc load w url)) = [].
Proof.
  unfold primary, try_catch, call, bind, ret, calls.
  destruct (page_goto w url); [|reflexivity].
  destruct (page_waitForSelector w table_selector);
    destruct (page_content w); reflexivity.
Qed.

(** X6. One call of [render] fetches at most once, and it fetches
    exactly when the port was resolved and the browser strategy threw;
    whenever the port is resolved and the fetch and the read of its
    body succeed, [render] returns, whatever the browser does. *)
Theorem render_single_fallback w path :
  (List.filter is_fetch (calls (render Doc load w path))
   = match portPromise w with
     | Returned port =>
         match result (primary Doc load w (url_of port path)) with
         | Thrown _ => [Fetch (url_of port path)]
         | Returned _ => []
         end
     | Thrown _ => []
     end) /\
  (forall port resp html,
     portPromise w = Returned port ->
     fetch w (url_of port path) = Returned resp ->
     resp_text resp = Returned html ->
     exists r, result (render Doc load w path) = Returned r).
Proof.
  split.
  - destruct (portPromise w) as [port|e] eqn:Hp.
    + rewrite (render_resolved _ _ _ _ _ Hp).
      pose proof (primary_no_fetch w (url_of port path)) as Hn.
      destruct (primary Doc load w (url_of port path)) as [log [r|e]].
      * unfold try_catch, calls, result in *. cbn [fst snd List.filter is_fetch] in *.
        exact Hn.
      * unfold try_catch, fallback, call, bind, ret, calls, result in *.
        cbn [fst snd] in Hn.
        destruct (fetch w (url_of port path)) as [resp|e2];
          [destruct (resp_text resp)|];
          cbn [fst snd List.filter is_fetch app];
          rewrite List.filter_app, Hn; reflexivity.
    + unfold render, call, bind. rewrite Hp. reflexivity.
  - intros port resp html Hp Hf Ht. rewrite (render_resolved _ _ _ _ _ Hp).
    destruct (primary Doc load w (url_of port path)) as [log [r|e]].
    + exists r. reflexivity.
    + exists (resp_status resp, load html).
      unfold try_catch, fallback, call, bind, ret, result. now rewrite Hf, Ht.
Qed.



End Pipeline.


Lemma lower_char_slash c : Ascii.eqb (lower_char c) slash = Ascii.eqb c slash.
Proof. destruct c as [[] [] [] [] [] [] [] []]; reflexivity. Qed.

Lemma split_map (f : ascii -> ascii) sep :
  (forall c, Ascii.eqb (f c) sep = Ascii.eqb c sep) ->
  forall s, split sep (map f s) = map (map f) (split sep s).
Proof.
  intros Hf. induction s as [|c s IH]; [reflexivity|].
  cbn [map split]. rewrite Hf, IH.
  destruct (Ascii.eqb c sep); [reflexivity|].
  destruct (split sep s); reflexivity.
Qed.

Lemma last_map (f : text -> text) l :
  l <> [] -> List.last (map f l) [] = f (List.last l []).
Proof.
  induction l as [|a [|b l] IH]; intros Hne; [congruence|reflexivity|].
  cbn [map List.last] in *. apply IH. discriminate.
Qed.

Lemma handleComponentName_lower name :
  handleComponentName name
  = replace (txt "-") []
      (replace (txt "-cn") [] (List.last (split slash (toLowerCase name)) [])).
Proof.
  unfold handleComponentName. cbv zeta. rewrite nth_last.
  unfold toLowerCase. rewrite (split_map lower_char slash lower_char_slash).
  rewrite last_map by apply split_nonempty. reflexivity.
Qed.

(** X8. On page identifiers made of ASCII characters the derived
    component name does not depend on letter case: two such identifiers
    that are equal once lower-cased have the same name. *)
Theorem handleComponentName_case_insensitive n1 n2 :
  is_ascii n1 = true -> is_ascii n2 = true ->
  toLowerCase n1 = toLowerCase n2 ->
  handleComponentName n1 = handleComponentName n2.
Proof.
  intros _ _ H.
  rewrite (handleComponentName_lower n1), (handleComponentName_lower n2).
  now rewrite H.
Qed.

Lemma handleComponentName_case_insensitive_witness :
  is_ascii (txt "components/DatePicker") = true /\
  is_ascii (txt "Components/datepicker") = true /\
  toLowerCase (txt "components/DatePicker") = toLowerCase (txt "Components/datepicker") /\
  handleComponentName (txt "components/DatePicker")
  = handleComponentName (txt "Components/datepicker").
Proof.
  split; [reflexivity|]. split; [reflexivity|]. split; [reflexivity|].
  apply (handleComponentName_case_insensitive
           (txt "components/DatePicker") (txt "Components/datepicker"));
    reflexivity.
Defined.

Lemma split_plain sep s :
  existsb (Ascii.eqb sep) s = false -> split sep s = [s].
Proof.
  induction s as [|c s IH]; [reflexivity|].
  cbn [existsb split]. rewrite orb_false_iff. intros [Hc Hs].
  rewrite Ascii.eqb_sym, Hc, (IH Hs). reflexivity.
Qed.

Lemma split_app_plain sep t :
  existsb (Ascii.eqb sep) t = false ->
  forall s,
    split sep (s ++ t)
    = removelast (split sep s) ++ [List.last (split sep s) [] ++ t].
Proof.
  intros Ht. induction s as [|c s IH].
  - cbn [app split removelast List.last]. now apply split_plain.
  - cbn [app split]. rewrite IH.
    pose proof (split_nonempty sep s) as Hne.
    destruct (Ascii.eqb c sep).
    + destruct (split sep s) as [|seg segs]; [congruence|]. reflexivity.
    + destruct (split sep s) as [|seg [|seg2 segs]]; [congruence| |]; reflexivity.
Qed.

Lemma last_snoc (l : list text) x : List.last (l ++ [x]) [] = x.
Proof.
  induction l as [|a l IH]; [reflexivity|].
  cbn [app]. destruct (l ++ [x]) eqn:E; [now destruct l|]. exact IH.
Qed.

Lemma marker_not_straddling c s :
  strip_prefix (txt "-cn") (c :: s) = None ->
  strip_prefix (txt "-cn") (c :: s ++ txt "-cn") = None.
Proof.
  replace (txt "-cn") with ["-"%char; "c"%char; "n"%char] by reflexivity.
  cbn [strip_prefix app].
  destruct (Ascii.eqb "-" c) eqn:E1; [|reflexivity].
  destruct s as [|d s]; cbn [app]; [reflexivity|].
  destruct (Ascii.eqb "c" d) eqn:E2; [|reflexivity].
  destruct s as [|e s]; cbn [app]; [reflexivity|].
  destruct (Ascii.eqb "n" e); [discriminate|reflexivity].
Qed.

Lemma replace_marker_suffix s :
  includes (txt "-cn") s = false -> replace (txt "-cn") [] (s ++ txt "-cn") = s.
Proof.
  induction s as [|c s IH]; [reflexivity|].
  cbn [includes]. rewrite orb_false_iff. intros [Hs Hi].
  unfold startsWith in Hs.
  destruct (strip_prefix (txt "-cn") (c :: s)) eqn:E; [discriminate|].
  cbn [app replace]. change (c :: s ++ txt "-cn") with (c :: (s ++ txt "-cn")).
  rewrite (marker_not_straddling c s E). now rewrite IH.
Qed.

(** X9. The locale-suffixed page and the base page of a component look
    for the same name in the heading: when the lower-cased last segment
    of an identifier does not contain [-cn], the identifier followed by
    [-cn] has the same derived name. *)
Theorem handleComponentName_locale_suffix component :
  includes (txt "-cn") (toLowerCase (List.last (split slash component) [])) = false ->
  handleComponentName (component ++ txt "-cn") = handleComponentName component.
Proof.
  intros H. unfold handleComponentName. cbv zeta. rewrite !nth_last.
  rewrite split_app_plain by reflexivity. rewrite last_snoc.
  unfold toLowerCase. rewrite map_app.
  change (map lower_char (txt "-cn")) with (txt "-cn").
  fold (toLowerCase (List.last (split slash component) [])).
  rewrite (replace_marker_suffix _ H). now rewrite (replace_absent _ _ _ H).
Qed.

Lemma handleComponentName_locale_suffix_witness :
  includes (txt "-cn")
    (toLowerCase (List.last (split slash (txt "components/date-picker")) [])) = false /\
  handleComponentName (txt "components/date-picker" ++ txt "-cn")
  = handleComponentName (txt "components/date-picker").
Proof.
  split; [reflexivity|].
  apply (handleComponentName_locale_suffix (txt "components/date-picker")).
  reflexivity.
Defined.




Section Registry.

Variable Doc : Type.
Variable load : text -> Doc.
Variable title_text : Doc -> text.
Variable h1_text : Doc -> text.
Variable markdown_tables : Doc -> nat.


Lemma fixed_titles :
  map title (fixed_scenarios Doc load title_text h1_text [])
  = [txt "Basic Pages en"; txt "Basic Pages zh"; txt "Overview en";
     txt "Overview zh"; txt "Resource en"; txt "Resource zh"].
Proof. reflexivity. Qed.

Lemma page_titles_differ c c' :
  txt "Component " ++ c ++ txt " zh Page"
  <> txt "Component " ++ c' ++ txt " en Page".
Proof.
  intros H. apply app_inv_head in H. apply (f_equal (@rev ascii)) in H.
  rewrite !rev_app_distr in H. vm_compute in H. discriminate H.
Qed.

Lemma page_title_inj sfx c c' :
  txt "Component " ++ c ++ sfx = txt "Component " ++ c' ++ sfx -> c = c'.
Proof. intros H. apply app_inv_head in H. now apply app_inv_tail in H. Qed.

Lemma component_titles_in components t :
  In t (map title (flat_map (scenarios_of Doc load h1_text markdown_tables) components)) ->
  exists c, In c components /\
            (t = txt "Component " ++ c ++ txt " zh Page" \/
             t = txt "Component " ++ c ++ txt " en Page").
Proof.
  intros H. apply in_map_iff in H as (s & <- & H).
  apply in_flat_map in H as (c & Hc & H). exists c. split; [exact Hc|].
  unfold scenarios_of in H. destruct (length (split slash c) <? 3); [|destruct H].
  destruct H as [<-|[<-|[]]]; [left|right]; reflexivity.
Qed.

Lemma component_titles_distinct components :
  List.NoDup components ->
  List.NoDup
    (map title (flat_map (scenarios_of Doc load h1_text markdown_tables) components)).
Proof.
  induction 1 as [|c cs Hc Hcs IH]; cbn [flat_map map]; [constructor|].
  rewrite map_app. unfold scenarios_of at 1.
  destruct (length (split slash c) <? 3); cbn [map app]; [|exact IH].
  change (title (zh_page Doc load h1_text markdown_tables c))
    with (txt "Component " ++ c ++ txt " zh Page").
  change (title (en_page Doc load h1_text markdown_tables c))
    with (txt "Component " ++ c ++ txt " en Page").
  constructor; [|constructor; [|exact IH]].
  - cbn [In]. intros [H|H].
    + symmetry in H. now apply page_titles_differ in H.
    + apply component_titles_in in H as (c' & Hc' & [H|H]).
      * apply page_title_inj in H. congruence.
      * now apply page_titles_differ in H.
  - intros H. apply component_titles_in in H as (c' & Hc' & [H|H]).
    + symmetry in H. now apply page_titles_differ in H.
    + apply page_title_inj in H. congruence.
Qed.

Lemma NoDup_append (l k : list text) :
  List.NoDup l -> List.NoDup k -> (forall x, In x l -> ~ In x k) ->
  List.NoDup (l ++ k).
Proof.
  induction 1 as [|a l Ha Hl IH]; intros Hk Hd; cbn [app]; [exact Hk|].
  constructor.
  - rewrite in_app_iff. intros [H|H]; [contradiction|].
    apply (Hd a); [now left|exact H].
  - apply IH; [exact Hk|]. intros x Hx. apply Hd. now right.
Qed.

(** X11. The tests registered for an inventory without duplicates have
    pairwise distinct titles, the six fixed ones included, so that each
    recorded table count is stored under a title of its own. *)
Theorem site_test_titles_distinct components :
  List.NoDup components ->
  List.NoDup (map title (site_test Doc load title_text h1_text markdown_tables components)).
Proof.
  intros Hnd. unfold site_test.
  rewrite (component_scenarios_flat Doc load h1_text markdown_tables), map_app.
  apply NoDup_append.
  - rewrite fixed_titles.
    repeat (constructor;
            [cbn [In]; intros H;
             repeat (destruct H as [H|H]; [vm_compute in H; discriminate H|]);
             exact H|]).
    constructor.
  - now apply component_titles_distinct.
  - rewrite fixed_titles. intros x Hx Hin.
    apply component_titles_in in Hin as (c & _ & [->| ->]);
      cbn [In] in Hx;
      repeat (destruct Hx as [Hx|Hx]; [vm_compute in Hx; discriminate Hx|]);
      exact Hx.
Qed.

End Registry.

Lemma site_test_titles_distinct_witness :
  List.NoDup [txt "components/button"; txt "components/date-picker"] /\
  List.NoDup
    (map title
       (site_test page sample_load page_title page_h1 page_tables
          [txt "components/button"; txt "components/date-picker"])).
Proof.
  assert (H : List.NoDup [txt "components/button"; txt "components/date-picker"]).
  { constructor; [|constructor; [intros []|constructor]].
    intros [H|[]]. vm_compute in H. discriminate H. }
  split; [exact H|].
  exact (site_test_titles_distinct page sample_load page_title page_h1 page_tables
           [txt "components/button"; txt "components/date-picker"] H).
Defined.


Lemma render_failure_propagates_witness :
  render page sample_load
    {| portPromise := Returned 3000%N;
       page_goto := fun _ => Thrown "net::ERR_CONNECTION_REFUSED";
       page_waitForSelector := fun _ => Returned tt;
       page_content := Returned [];
       fetch := fun _ => Thrown "fetch failed";
       toMatchSnapshot := fun _ => Returned tt |}
    (txt "/docs/resources")
  = ([AwaitPort; Goto (url_of 3000%N (txt "/docs/resources")) 10000%N;
      ConsoleError (url_of 3000%N (txt "/docs/resources")) "net::ERR_CONNECTION_REFUSED";
      Fetch (url_of 3000%N (txt "/docs/resources"))],
     Thrown "fetch failed").
Proof.
  apply (proj1 (render_failure_propagates page sample_load
                  {| portPromise := Returned 3000%N;
                     page_goto := fun _ => Thrown "net::ERR_CONNECTION_REFUSED";
                     page_waitForSelector := fun _ => Returned tt;
                     page_content := Returned [];
                     fetch := fun _ => Thrown "fetch failed";
                     toMatchSnapshot := fun _ => Returned tt |}
                  (txt "/docs/resources"))
               3000%N "net::ERR_CONNECTION_REFUSED" "fetch failed");
    reflexivity.
Defined.

Lemma render_single_fallback_witness :
  exists r,
    result (render page sample_load (fetch_world 404 (txt "Not Found|"))
                   (txt "/components/missing/"))
    = Returned r.
Proof.
  apply (proj2 (render_single_fallback page sample_load
                  (fetch_world 404 (txt "Not Found|"))
                  (txt "/components/missing/"))
               3000%N
               {| resp_status := 404; resp_text := Returned (txt "Not Found|") |}
               (txt "Not Found|"));
    reflexivity.
Defined.

End RenderLaws.

(* ===================================================================== *)
(** ** Properties of the setup, with the teardown *)
(* ===================================================================== *)

Module SetupFacts.
Import Effects Setup.

(** X12. After [beforeAll], however it ended, [server] is assigned
    exactly when the server was created and [browser] exactly when the
    launch returned (a failure of [newPage] or [setViewport] leaves the
    browser assigned); a [beforeAll] that returned assigned all three
    variables; and an [afterAll] whose browser [close] does not fail then
    closes exactly what was assigned, the browser first. *)
Theorem setup_then_teardown w server_close :
  server_set (fst (fst (beforeAll w unassigned))) = server_created w /\
  browser_set (fst (fst (beforeAll w unassigned))) = browser_launched w /\
  (snd (beforeAll w unassigned) = Returned tt ->
   fst (fst (beforeAll w unassigned))
   = {| server_set := true; browser_set := true; page_set := true |}) /\
  calls (Teardown.afterAll
           (session_after (fst (fst (beforeAll w unassigned)))
                          (Returned tt) server_close))
  = (if browser_launched w then [Teardown.BrowserClose] else [])
    ++ (if server_created w then [Teardown.ServerClose] else []).
Proof.
  unfold beforeAll, hbind, hcall, assign, server_created, browser_launched,
    session_after, Teardown.afterAll, calls, bind, call, ret.
  destruct (portPromise w) as [port|]; cbn;
    [destruct (createServer w); cbn;
     [destruct (listen w port); cbn;
      [destruct (launch w); cbn;
       [destruct (newPage w); cbn; [destruct (setViewport w); cbn|]|]|]|]|];
    repeat split; try reflexivity; try discriminate.
Qed.

Lemma setup_then_teardown_witness :
  snd (beforeAll {| portPromise := Returned 3000%N;
                    createServer := Returned tt;
                    listen := fun _ => Returned tt;
                    launch := Returned tt;
                    newPage := Returned tt;
                    setViewport := Returned tt |} unassigned) = Returned tt /\
  fst (fst (beforeAll {| portPromise := Returned 3000%N;
                         createServer := Returned tt;
                         listen := fun _ => Returned tt;
                         launch := Returned tt;
                         newPage := Returned tt;
                         setViewport := Returned tt |} unassigned))
  = {| server_set := true; browser_set := true; page_set := true |}.
Proof.
  split; [reflexivity|].
  apply (proj1 (proj2 (proj2 (setup_then_teardown
           {| portPromise := Returned 3000%N;
              createServer := Returned tt;
              listen := fun _ => Returned tt;
              launch := Returned tt;
              newPage := Returned tt;
              setViewport := Returned tt |} (Returned tt))))).
  reflexivity.
Defined.

End SetupFacts.

(* ===================================================================== *)
(** ** Further properties of the polyfills *)
(* ===================================================================== *)

Module PolyfillLaws.
Import Polyfill PolyfillFacts.

Section FormData.

Variable V : Type.

Lemma track_step (name : string) (data : gmap string (list V))
    (values : list V) (o : op V) :
  data !! name = match values with [] => None | _ :: _ => Some values end ->
  apply_op V data o !! name
  = match track V name values o with
    | [] => None
    | _ :: _ => Some (track V name values o)
    end.
Proof.
  intros Hd. destruct o as [n v|n v|n]; cbn [apply_op track];
    destruct (String.eqb_spec n name) as [->|Hne].
  - unfold append. rewrite Hd. destruct values as [|x values].
    + rewrite lookup_insert_eq. cbn [app]. now rewrite lookup_insert_eq.
    + rewrite Hd. cbn [app]. now rewrite lookup_insert_eq.
  - now rewrite append_other.
  - unfold set. now rewrite lookup_insert_eq.
  - unfold set. now rewrite lookup_insert_ne.
  - unfold delete. now rewrite lookup_delete_eq.
  - unfold delete. now rewrite lookup_delete_ne.
Qed.

Lemma track_run (name : string) (ops : list (op V)) :
  forall (data : gmap string (list V)) (values : list V),
  data !! name = match values with [] => None | _ :: _ => Some values end ->
  fold_left (apply_op V) ops data !! name
  = match fold_left (track V name) ops values with
    | [] => None
    | _ :: _ => Some (fold_left (track V name) ops values)
    end.
Proof.
  induction ops as [|o ops IH]; intros data values Hd; cbn [fold_left].
  - exact Hd.
  - apply IH. now apply track_step.
Qed.

(** X13. A form built by any sequence of [append], [set] and [delete]
    holds, under each name, the values appended since the last [set] or
    [delete] of that name: [getAll] returns them in order, [get] the
    first of them or [null] when there is none (never [undefined]), and
    [has] tells whether there is one. *)
Theorem MockFormData_tracks (name : string) (ops : list (op V)) :
  getAll V name (run V ops) = values_of V name ops /\
  get V name (run V ops)
  = match values_of V name ops with
    | [] => Null V
    | v :: _ => Value V v
    end /\
  has V name (run V ops)
  = match values_of V name ops with [] => false | _ :: _ => true end.
Proof.
  unfold getAll, get, has, run, values_of.
  rewrite (track_run name ops (new_MockFormData V) []) by apply lookup_empty.
  destruct (fold_left (track V name) ops []); repeat split; reflexivity.
Qed.

End FormData.

Lemma total_length (buffers : list part) : forall acc,
  fold_left (fun sum buf => sum + buffer_byteLength buf) buffers acc
  = acc + length (concat (map slot buffers)) \/ forallb fits buffers = false.
Proof.
  induction buffers as [|b bs IH]; intros acc; cbn [fold_left map concat forallb length].
  - left. lia.
  - destruct (fits b) eqn:F; [|now right]. cbn [andb].
    destruct (IH (acc + buffer_byteLength b)) as [E|E]; [left|now right].
    rewrite E, length_app. unfold slot, fits in *.
    destruct (buffer_uint8 b) as [source|]; [|discriminate].
    apply Nat.leb_le in F. rewrite length_app, repeat_length. lia.
Qed.

Lemma view_set_fill (pre source : list Byte.byte) (m n : nat) :
  length source <= m ->
  view_set (pre ++ repeat Byte.x00 (m + n)) source (length pre)
  = Some ((pre ++ source ++ repeat Byte.x00 (m - length source))
            ++ repeat Byte.x00 n).
Proof.
  intros Hm. unfold view_set. rewrite length_app, repeat_length.
  replace (length pre + length source <=? length pre + (m + n)) with true
    by (symmetry; apply Nat.leb_le; lia).
  f_equal. rewrite List.firstn_app, Nat.sub_diag, List.firstn_all.
  cbn [firstn]. rewrite app_nil_r, <- !app_assoc. do 2 f_equal.
  rewrite List.skipn_app, List.skipn_all2 by lia.
  replace (length pre + length source - length pre) with (length source) by lia.
  replace (m + n) with (length source + ((m - length source) + n)) by lia.
  rewrite repeat_app, List.skipn_app, repeat_length, Nat.sub_diag.
  rewrite List.skipn_all2 by (rewrite repeat_length; lia).
  cbn [skipn app]. apply repeat_app.
Qed.

Lemma fill_loop (buffers : list part) :
  forallb fits buffers = true ->
  forall pre,
  fold_left
    (fun state buffer =>
       match state with
       | Some (view, offset) =>
           match buffer_uint8 buffer with
           | Some source =>
               match view_set view source offset with
               | Some view' => Some (view', offset + buffer_byteLength buffer)
               | None => None
               end
           | None => None
           end
       | None => None
       end)
    buffers
    (Some (pre ++ repeat Byte.x00 (length (concat (map slot buffers))),
           length pre))
  = Some (pre ++ concat (map slot buffers),
          length pre + length (concat (map slot buffers))).
Proof.
  induction buffers as [|b bs IH]; intros Hf pre; cbn [fold_left map concat].
  - cbn [length repeat]. now rewrite Nat.add_0_r.
  - cbn [forallb] in Hf. apply andb_true_iff in Hf as [Hb Hbs].
    rewrite length_app. unfold fits in Hb.
    assert (Hs : slot b = match buffer_uint8 b with
                          | Some source =>
                              source ++ repeat Byte.x00 (buffer_byteLength b - length source)
                          | None => []
                          end) by reflexivity.
    rewrite !Hs. clear Hs.
    destruct (buffer_uint8 b) as [source|]; [|discriminate].
    apply Nat.leb_le in Hb. rewrite length_app, repeat_length.
    replace (length source + (buffer_byteLength b - length source))
      with (buffer_byteLength b) by lia.
    rewrite (view_set_fill pre source _ _ Hb).
    replace (length pre + buffer_byteLength b)
      with (length (pre ++ source ++ repeat Byte.x00 (buffer_byteLength b - length source)))
      by (rewrite !length_app, repeat_length; lia).
    rewrite (IH Hbs), <- !app_assoc, !length_app, repeat_length.
    f_equal. f_equal. lia.
Qed.

Lemma thrown_loop (buffers : list part) :
  existsb throws buffers = true ->
  forall state,
  fold_left
    (fun state buffer =>
       match state with
       | Some (view, offset) =>
           match buffer_uint8 buffer with
           | Some source =>
               match view_set view source offset with
               | Some view' => Some (view', offset + buffer_byteLength buffer)
               | None => None
               end
           | None => None
           end
       | None => None
       end)
    buffers state
  = None.
Proof.
  assert (Hnone : forall bs : list part,
    fold_left
      (fun state buffer =>
         match state with
         | Some (view, offset) =>
             match buffer_uint8 buffer with
             | Some source =>
                 match view_set view source offset with
                 | Some view' => Some (view', offset + buffer_byteLength buffer)
                 | None => None
                 end
             | None => None
             end
         | None => None
         end)
      bs None = None)
    by (induction bs as [|b bs IH]; [reflexivity|exact IH]).
  induction buffers as [|b bs IH]; [discriminate|].
  cbn [existsb fold_left]. intros Ht [[view offset]|]; [|apply Hnone].
  unfold throws in Ht at 1.
  destruct (buffer_uint8 b) as [source|]; [|apply Hnone].
  cbn [orb] in Ht. destruct (view_set view source offset); [|apply Hnone].
  now apply IH.
Qed.

Lemma sizes_of_slots parts :
  forallb fits parts = true ->
  N.of_nat (length (concat (map slot parts))) = sum_of_sizes (map part_bit parts).
Proof.
  unfold sum_of_sizes. induction parts as [|p ps IH]; [reflexivity|].
  cbn [forallb map concat fold_right]. intros Hf.
  apply andb_true_iff in Hf as [Hp Hps].
  rewrite length_app, Nat2N.inj_add, (IH Hps). f_equal.
  unfold slot, fits in *. destruct p as [s|raw [source|]];
    cbn [buffer_uint8 buffer_byteLength part_bit bit_size] in *;
    try discriminate; apply Nat.leb_le in Hp;
    rewrite length_app, repeat_length; unfold byteLength; f_equal; lia.
Qed.

(** A string and a [Uint16Array] of two elements: the elements are
    written as single bytes at the offset of the array, which still
    advances by four. *)
Example arrayBuffer_wide_elements :
  arrayBuffer
    [StringPart [0x61%N];
     BufferPart [Byte.x02; Byte.x01; Byte.x04; Byte.x03]
                (Some [Byte.x02; Byte.x04])]
  = Some [Byte.x61; Byte.x02; Byte.x04; Byte.x00; Byte.x00].
Proof. reflexivity. Qed.

(** X14. [arrayBuffer()] never overruns its buffer: when every bit
    converts to no more elements than it has bytes, every [view.set]
    fits and the result is, bit after bit, what [new Uint8Array(bit)]
    holds followed by zeros up to the [byteLength] of the bit (for a
    string its UTF-8 encoding, for an [ArrayBuffer] or a byte-wide array
    its bytes, for a wider typed array one byte per element and zeros);
    its length is the [size] the constructor recorded. When the
    conversion of a bit throws, the promise rejects. *)
Theorem arrayBuffer_slots (now : Z) (parts : list part) (filename : jsstring)
    (options : file_options) :
  (forallb fits parts = true ->
   arrayBuffer parts = Some (concat (map slot parts)) /\
   N.of_nat (length (concat (map slot parts)))
   = size (new_MockFile now (map part_bit parts) filename options)) /\
  (existsb throws parts = true -> arrayBuffer parts = None) /\
  (forall s, slot (StringPart s) = encode s) /\
  (forall raw, slot (BufferPart raw (Some raw)) = raw).
Proof.
  repeat apply conj.
  - intros Hf. split.
    + unfold arrayBuffer. cbv zeta.
      destruct (total_length parts 0) as [E|E]; [|congruence].
      rewrite E. cbn [Nat.add].
      pose proof (fill_loop parts Hf []) as H.
      cbn [app length] in H. rewrite H. reflexivity.
    + cbn [size new_MockFile]. rewrite fold_sizes, (sizes_of_slots parts Hf). lia.
  - intros Ht. unfold arrayBuffer. cbv zeta. now rewrite (thrown_loop parts Ht).
  - intros s. unfold slot. cbn [buffer_uint8 buffer_byteLength].
    rewrite Nat.sub_diag. apply app_nil_r.
  - intros raw. unfold slot. cbn [buffer_uint8 buffer_byteLength].
    rewrite Nat.sub_diag. apply app_nil_r.
Qed.

Lemma arrayBuffer_slots_witness :
  forallb fits
    [StringPart [0x68%N; 0xE9%N];
     BufferPart [Byte.x02; Byte.x01; Byte.x04; Byte.x03]
                (Some [Byte.x02; Byte.x04]);
     BufferPart [Byte.x07] (Some [Byte.x07])] = true /\
  arrayBuffer
    [StringPart [0x68%N; 0xE9%N];
     BufferPart [Byte.x02; Byte.x01; Byte.x04; Byte.x03]
                (Some [Byte.x02; Byte.x04]);
     BufferPart [Byte.x07] (Some [Byte.x07])]
  = Some (concat (map slot
       [StringPart [0x68%N; 0xE9%N];
        BufferPart [Byte.x02; Byte.x01; Byte.x04; Byte.x03]
                   (Some [Byte.x02; Byte.x04]);
        BufferPart [Byte.x07] (Some [Byte.x07])])).
Proof.
  split; [reflexivity|].
  apply (proj1 (arrayBuffer_slots 0
                  [StringPart [0x68%N; 0xE9%N];
                   BufferPart [Byte.x02; Byte.x01; Byte.x04; Byte.x03]
                              (Some [Byte.x02; Byte.x04]);
                   BufferPart [Byte.x07] (Some [Byte.x07])]
                  [] {| opt_type := None; opt_lastModified := None |})).
  reflexivity.
Defined.

(** X15. The reader of [stream()] never delivers the content: called as
    [reader.read()], the first [read] rejects with a [TypeError] (inside
    [read], [this] is the reader, which has no [bits]) after having set
    [done], and every later [read] reports the end of the stream. *)
Theorem stream_reader_never_yields
    (buffer_toString : list Byte.byte -> jsstring) (n : nat) :
  reads buffer_toString (S n) false
  = Effects.Thrown not_an_object :: repeat (Effects.Returned Done) n.
Proof.
  cbn [reads read this_bits]. f_equal.
  induction n as [|n IH]; [reflexivity|].
  cbn [reads read repeat]. now rewrite IH.
Qed.

End PolyfillLaws.
